(** * autorandr-rs: the daemon's matching, allocation and commit engine

    A shallow embedding of [src/commands/daemon.rs] and the helpers of
    [src/lib.rs] it calls.  X11 identifiers ([Output], [Crtc], mode ids,
    timestamps, coordinates) are integers of the protocol and are modelled
    as [Z].  The server is seen through a connection record: the read
    requests answer from a snapshot of the server (all reads of one pass
    happen before its first write), and the write requests are recorded in
    a trace, their success decided by the connection from the trace so far. *)

From Stdlib Require Import ZArith List String Bool Lia.
From stdpp Require Import base gmap sets list strings sorting.

Open Scope Z_scope.

(** ** Data model *)

(** [crate::config::Mode]: a semantic resolution. *)
Record Mode := { w : Z; h : Z }.

#[global] Instance Mode_eq_dec : EqDecision Mode.
Proof. intros [a b] [c d]; unfold Decision; decide equality; apply Z.eq_dec. Defined.

#[global] Instance Mode_countable : Countable Mode.
Proof.
  apply (inj_countable' (fun m => (w m, h m)) (fun p => {| w := p.1; h := p.2 |})).
  by intros [].
Defined.

(** Modelled from the spec: [Mode::union] of the config module (not in the
    sources): the component-wise maximum of two sizes (spec 4.4 step 5b). *)
Definition union (a b : Mode) : Mode :=
  {| w := Z.max (w a) (w b); h := Z.max (h a) (h b) |}.

(** [crate::config::Position]. *)
Record Position := { x : Z; y : Z }.

(** [crate::config::MonConfig], with the fields [daemon.rs] reads. *)
Record MonConfig := { name : string; mode : Mode; position : Position }.

(** Modelled from the spec: [crate::config::Monitor] (identity parsing is
    not in the sources) is an opaque identity with a total order; it is
    represented by its position in that order. *)
Definition Monitor := Z.

(** Modelled from the spec: [crate::config::SingleConfig] and
    [crate::config::Config] (the config module is not in the sources).  A
    profile has a name, a map from monitor identity to [MonConfig] and a
    framebuffer size; the profile set is a map keyed by lists of monitor
    identities, looked up with [config.0.get(&monitors)]. *)
Record SingleConfig := {
  sc_name : string;
  sc_setup : gmap Monitor MonConfig;
  sc_fb_size : Mode
}.

Definition Config := gmap (list Monitor) SingleConfig.

(** Replies of the RandR requests, with the fields the code reads. *)
Record GetOutputInfoReply := {
  oi_crtc : Z;            (* bound Crtc, 0 when none *)
  oi_crtcs : list Z;      (* Crtcs able to drive the output *)
  oi_modes : list Z;      (* mode ids the output supports *)
  oi_mm_width : Z;
  oi_mm_height : Z
}.

Record GetCrtcInfoReply := {
  ci_timestamp : Z;
  ci_x : Z;
  ci_y : Z;
  ci_mode : Z;
  ci_rotation : Z;
  ci_outputs : list Z
}.

Record ModeInfo := { mi_id : Z; mi_width : Z; mi_height : Z }.

Record GetScreenResourcesCurrentReply := {
  res_crtcs : list Z;
  res_outputs : list Z
}.

Record SetCrtcConfigRequest := {
  req_crtc : Z;
  req_timestamp : Z;
  req_config_timestamp : Z;
  req_x : Z;
  req_y : Z;
  req_mode : Z;
  req_rotation : Z;
  req_outputs : list Z
}.

(** [SetConfig] reply statuses. *)
Definition SetConfig_SUCCESS : Z := 0.
Definition SetConfig_INVALID_CONFIG_TIME : Z := 1.
Definition SetConfig_INVALID_TIME : Z := 2.
Definition SetConfig_FAILED : Z := 3.

(** [daemon::Error], plus the protocol (connection or reply) errors that
    [into_diagnostic] turns into the same [miette] report. *)
Inductive Error :=
| ModeNotFound (m : Mode)
| ModeNotSupported (m : Mode)
| NoCrtc (monitor : string)
| ConnError.

(** What [get_edid] yields for one output: a protocol error, data that
    does not parse, or a monitor identity. *)
Inductive EdidRead :=
| EdidErr
| EdidUnparsed
| EdidMonitor (m : Monitor).

(** Events of the protocol trace: the write requests sent to the server
    ([SetCrtcConfig] and [SetScreenSize]) and the points where the client
    blocks for the reply of a sent [SetCrtcConfig]. *)
Inductive Event :=
| SendCrtcConfig (r : SetCrtcConfigRequest)
| SendScreenSize (width height mm_width mm_height : Z)
| AwaitReply (r : SetCrtcConfigRequest).

(** Messages written by [error!], [eprintln!] and [println!]. *)
Inductive Log :=
| LogRequestFailed (num : nat) (status : Z)
| LogError (e : Error)
| LogEdidError (output : Z)
| LogNoMatch
| LogConfiguration (profile : string).

(** The connection: answers of the read requests and outcome of the writes. *)
Record Conn := {
  c_screen_resources_current : option GetScreenResourcesCurrentReply;
  c_screen_resources : option (list ModeInfo * Z);
  c_output_property : Z -> EdidRead;
  c_output_info : Z -> Z -> option GetOutputInfoReply;
  c_crtc_info : Z -> Z -> option GetCrtcInfoReply;
  c_geometry : option (Z * Z);
  c_send_ok : list Event -> SetCrtcConfigRequest -> bool;
  c_reply : list Event -> SetCrtcConfigRequest -> option Z;
  c_screen_size_sent : list Event -> bool;
  c_screen_size_ok : list Event -> bool
}.

(** ** A state and error monad *)

Record St := { st_trace : list Event; st_logs : list Log }.

Inductive Res (A : Type) := Ok (a : A) | Err (e : Error).
Arguments Ok {A} a.
Arguments Err {A} e.

Definition M (A : Type) := St -> St * Res A.

Definition ret {A} (a : A) : M A := fun s => (s, Ok a).
Definition fail {A} (e : Error) : M A := fun s => (s, Err e).
Definition mbind {A B} (m : M A) (k : A -> M B) : M B :=
  fun s => match m s with
           | (s', Ok a) => k a s'
           | (s', Err e) => (s', Err e)
           end.

Notation "'let!' x := m 'in' k" := (mbind m (fun x => k))
  (at level 200, x name, m at level 100, k at level 200).
Notation "'let!' ' p := m 'in' k" := (mbind m (fun v => match v with p => k end))
  (at level 200, p pattern, m at level 100, k at level 200).

Definition emit (e : Event) : M unit :=
  fun s => ({| st_trace := st_trace s ++ [e]; st_logs := st_logs s |}, Ok tt).

Definition log (l : Log) : M unit :=
  fun s => ({| st_trace := st_trace s; st_logs := st_logs s ++ [l] |}, Ok tt).

Definition trace_now : M (list Event) := fun s => (s, Ok (st_trace s)).

(** [.into_diagnostic()?] on a protocol reply. *)
Definition reply {A} (r : option A) : M A :=
  match r with Some a => ret a | None => fail ConnError end.

(** ** Mode resolver *)

(** [mode_map]: group the server's mode ids by (width, height). *)
Definition insert_mode (modes : gmap Mode (gset Z)) (mi : ModeInfo) : gmap Mode (gset Z) :=
  let k := {| w := mi_width mi; h := mi_height mi |} in
  <[k := {[mi_id mi]} ∪ default ∅ (modes !! k)]> modes.

Definition mode_map (conn : Conn) : M (gmap Mode (gset Z) * Z) :=
  let! '(mis, timestamp) := reply (c_screen_resources conn) in
  ret (foldl insert_mode ∅ mis, timestamp).

(** [Iterator::find_map] over a list. *)
Fixpoint find_map {A B} (f : A -> option B) (l : list A) : option B :=
  match l with
  | [] => None
  | a :: l' => match f a with Some b => Some b | None => find_map f l' end
  end.

(** [find_mode_id]. *)
Definition find_mode_id (info : GetOutputInfoReply) (mode_map : gmap Mode (gset Z))
    (m : Mode) : Res Z :=
  match mode_map !! m with
  | None => Err (ModeNotFound m)
  | Some mode_ids =>
      match find_map (fun i => if decide (i ∈ mode_ids) then Some i else None)
                     (oi_modes info) with
      | Some i => Ok i
      | None => Err (ModeNotSupported m)
      end
  end.

(** ** Controller allocator *)

(** [allocate_crtc]: the returned Crtc and the free set after the call. *)
Definition allocate_crtc (info : GetOutputInfoReply) (free : gset Z) : option Z * gset Z :=
  let dest := if decide (oi_crtc info <> 0) then Some (oi_crtc info)
              else find_map (fun c => if decide (c ∈ free) then Some c else None)
                            (oi_crtcs info) in
  match dest with
  | Some d => (Some d, free ∖ {[d]})
  | None => (None, free)
  end.

(** ** Batch committer *)

(** [Result] of a pure helper inside the monad ([?]). *)
Definition lift {A} (r : Res A) : M A :=
  match r with Ok a => ret a | Err e => fail e end.

(** Sending the requests of a batch: [collect] stops at the first send
    that fails. *)
Fixpoint send_all (conn : Conn) (batch : list SetCrtcConfigRequest) : M unit :=
  match batch with
  | [] => ret tt
  | r :: rest =>
      let! t := trace_now in
      if c_send_ok conn t r
      then let! _ := emit (SendCrtcConfig r) in send_all conn rest
      else fail ConnError
  end.

(** Awaiting the replies, in the order of the cookies. *)
Fixpoint reply_all (conn : Conn) (batch : list SetCrtcConfigRequest) : M (list Z) :=
  match batch with
  | [] => ret []
  | r :: rest =>
      let! _ := emit (AwaitReply r) in
      let! t := trace_now in
      let! status := reply (c_reply conn t r) in
      let! statuses := reply_all conn rest in
      ret (status :: statuses)
  end.

(** The [match res.status] of the enumerated responses. *)
Fixpoint log_statuses (num : nat) (statuses : list Z) : M unit :=
  match statuses with
  | [] => ret tt
  | status :: rest =>
      let! _ := (if decide (status = SetConfig_INVALID_CONFIG_TIME)
                 then log (LogRequestFailed num status)
                 else if decide (status = SetConfig_INVALID_TIME)
                 then log (LogRequestFailed num status)
                 else if decide (status = SetConfig_FAILED)
                 then log (LogRequestFailed num status)
                 else ret tt) in
      log_statuses (S num) rest
  end.

(** [batch_config]. *)
Definition batch_config (conn : Conn) (batch : list SetCrtcConfigRequest) : M unit :=
  let! _ := send_all conn batch in
  let! responses := reply_all conn batch in
  let! _ := log_statuses 0 responses in
  ret tt.

(** [randr_set_screen_size(..)?.check()?]: the request is sent (the first
    [?] fails when it cannot be), then its error (if any) is awaited. *)
Definition set_screen_size (conn : Conn) (width height mm_w mm_h : Z) : M unit :=
  let! t0 := trace_now in
  if c_screen_size_sent conn t0 then
    let! _ := emit (SendScreenSize width height mm_w mm_h) in
    let! t := trace_now in
    if c_screen_size_ok conn t then ret tt else fail ConnError
  else fail ConnError.

(** [disable_crtc]. *)
Definition disable_crtc (crtc : Z) (from : GetCrtcInfoReply) : SetCrtcConfigRequest :=
  {| req_crtc := crtc;
     req_timestamp := ci_timestamp from;
     req_config_timestamp := ci_timestamp from;
     req_x := ci_x from;
     req_y := ci_y from;
     req_mode := 0;
     req_rotation := ci_rotation from;
     req_outputs := [] |}.

(** The enable request of [apply_config]: [SetCrtcConfigRequest { x, y,
    rotation: 1, mode, outputs: vec![out], ..disable_crtc(dest, &info) }]. *)
Definition enable_request (dest_crtc : Z) (crtc_info : GetCrtcInfoReply)
    (p : Position) (m out : Z) : SetCrtcConfigRequest :=
  let d := disable_crtc dest_crtc crtc_info in
  {| req_crtc := req_crtc d;
     req_timestamp := req_timestamp d;
     req_config_timestamp := req_config_timestamp d;
     req_x := x p;
     req_y := y p;
     req_mode := m;
     req_rotation := 1;
     req_outputs := [out] |}.

(** The test [x != crtc_info.x || y != crtc_info.y || mode != crtc_info.mode]. *)
Definition needs_enable (p : Position) (m : Z) (crtc_info : GetCrtcInfoReply) : bool :=
  negb (Z.eqb (x p) (ci_x crtc_info)) || negb (Z.eqb (y p) (ci_y crtc_info))
  || negb (Z.eqb m (ci_mode crtc_info)).

(** [+=] on [u32] (wrapping, as in a release build). *)
Definition add_u32 (a b : Z) : Z := (a + b) mod 2 ^ 32.

(** The loop state of step 1: free set, enable queue, mm sizes. *)
Record Acc := { free : gset Z; enables : list SetCrtcConfigRequest; mm_w : Z; mm_h : Z }.

(** One iteration of the [for (&conf, &out) in outs_in_conf] loop. *)
Definition configure_output (conn : Conn) (modes : gmap Mode (gset Z)) (timestamp : Z)
    (conf : MonConfig) (out : Z) (acc : Acc) : M Acc :=
  let! out_info := reply (c_output_info conn out timestamp) in
  let! m := lift (find_mode_id out_info modes (mode conf)) in
  let '(dest, free') := allocate_crtc out_info (free acc) in
  let! dest_crtc := (match dest with Some d => ret d | None => fail (NoCrtc (name conf)) end) in
  let mm_w' := add_u32 (mm_w acc) (oi_mm_width out_info) in
  let mm_h' := add_u32 (mm_h acc) (oi_mm_height out_info) in
  let! crtc_info := reply (c_crtc_info conn dest_crtc timestamp) in
  let enables' :=
    if needs_enable (position conf) m crtc_info
    then enables acc ++ [enable_request dest_crtc crtc_info (position conf) m out]
    else enables acc in
  ret {| free := free'; enables := enables'; mm_w := mm_w'; mm_h := mm_h' |}.

Fixpoint configure_outputs (conn : Conn) (modes : gmap Mode (gset Z)) (timestamp : Z)
    (outs : list (MonConfig * Z)) (acc : Acc) : M Acc :=
  match outs with
  | [] => ret acc
  | (conf, out) :: rest =>
      let! acc' := configure_output conn modes timestamp conf out acc in
      configure_outputs conn modes timestamp rest acc'
  end.

(** Step 2: the leftover Crtcs still driving an output or a mode.  The
    iteration order of the [HashSet] is the one of [elements]. *)
Fixpoint collect_disables (conn : Conn) (timestamp : Z) (crtcs : list Z)
    : M (list SetCrtcConfigRequest) :=
  match crtcs with
  | [] => ret []
  | crtc :: rest =>
      let! info := reply (c_crtc_info conn crtc timestamp) in
      let! ds := collect_disables conn timestamp rest in
      ret (if negb (bool_decide (ci_outputs info = [])) || negb (Z.eqb (ci_mode info) 0)
           then disable_crtc crtc info :: ds else ds)
  end.

(** Steps 4 and 5: decide, then commit in order. *)
Definition commit (conn : Conn) (fb_size current : Mode)
    (disables enables : list SetCrtcConfigRequest) (mm_w mm_h : Z) : M bool :=
  if decide (disables = [] /\ enables = [] /\ current = fb_size) then ret false
  else
    let! _ := (if decide (disables <> []) then batch_config conn disables else ret tt) in
    let! current' :=
      (if decide (current <> union current fb_size)
       then let u := union current fb_size in
            let! _ := set_screen_size conn (w u) (h u) mm_w mm_h in ret u
       else ret current) in
    let! _ := batch_config conn enables in
    let! _ := (if decide (current' <> fb_size)
               then set_screen_size conn (w fb_size) (h fb_size) mm_w mm_h
               else ret tt) in
    ret true.

(** The configured outputs, in the order the server reports them. *)
Definition outs_in_conf (res : GetScreenResourcesCurrentReply)
    (setup : gmap Z MonConfig) : list (MonConfig * Z) :=
  omap (fun o => match setup !! o with Some c => Some (c, o) | None => None end)
       (res_outputs res).

(** What steps 1 to 3 of [apply_config] compute: the two queues, the
    current framebuffer size and the summed physical size. *)
Record Queues := {
  q_disables : list SetCrtcConfigRequest;
  q_enables : list SetCrtcConfigRequest;
  q_current : Mode;
  q_mm_w : Z;
  q_mm_h : Z
}.

(** Steps 1 to 3 of [apply_config] (lines 175 to 237): read requests only. *)
Definition compute_queues (conn : Conn) (res : GetScreenResourcesCurrentReply)
    (setup : gmap Z MonConfig) : M Queues :=
  let! '(modes, timestamp) := mode_map conn in
  let acc0 := {| free := list_to_set (res_crtcs res); enables := []; mm_w := 0; mm_h := 0 |} in
  let! acc := configure_outputs conn modes timestamp (outs_in_conf res setup) acc0 in
  let! disables := collect_disables conn timestamp (elements (free acc)) in
  let! '(gw, gh) := reply (c_geometry conn) in
  ret {| q_disables := disables; q_enables := enables acc;
         q_current := {| w := gw; h := gh |}; q_mm_w := mm_w acc; q_mm_h := mm_h acc |}.

(** [apply_config]. *)
Definition apply_config (conn : Conn) (res : GetScreenResourcesCurrentReply)
    (fb_size : Mode) (setup : gmap Z MonConfig) : M bool :=
  let! q := compute_queues conn res setup in
  commit conn fb_size (q_current q) (q_disables q) (q_enables q) (q_mm_w q) (q_mm_h q).

(** ** Profile matcher *)

(** [get_monitors] (lib.rs), driven to the end by [collect]: outputs whose
    EDID cannot be read are reported and skipped, those whose EDID does not
    parse are skipped silently. *)
Fixpoint get_monitors (conn : Conn) (outputs : list Z) : M (list (Z * Monitor)) :=
  match outputs with
  | [] => ret []
  | out :: rest =>
      match c_output_property conn out with
      | EdidMonitor m =>
          let! ms := get_monitors conn rest in ret ((out, m) :: ms)
      | EdidUnparsed => get_monitors conn rest
      | EdidErr => let! _ := log (LogEdidError out) in get_monitors conn rest
      end
  end.

(** [collect] into a [HashMap]: a later pair overwrites an earlier one. *)
Definition collect_map (pairs : list (Z * Monitor)) : gmap Z Monitor :=
  foldl (fun m '(o, mon) => <[o := mon]> m) ∅ pairs.

(** [slice::sort] on a total order: the sorted permutation. *)
Fixpoint insert_sorted (a : Monitor) (l : list Monitor) : list Monitor :=
  match l with
  | [] => [a]
  | b :: l' => if Z.leb a b then a :: b :: l' else b :: insert_sorted a l'
  end.

Fixpoint sort (l : list Monitor) : list Monitor :=
  match l with
  | [] => []
  | a :: l' => insert_sorted a (sort l')
  end.

(** The canonical key of the live monitors: [out_to_mon.values()], sorted. *)
Definition monitors_key (out_to_mon : gmap Z Monitor) : list Monitor :=
  sort (map snd (map_to_list out_to_mon)).

(** The outputs of a matched profile, with their [MonConfig]. *)
Definition restrict_setup (out_to_mon : gmap Z Monitor) (setup : gmap Monitor MonConfig)
    : gmap Z MonConfig :=
  omap (fun mon => setup !! mon) out_to_mon.

(** [get_config]. *)
Definition get_config (config : Config) (conn : Conn) (outputs : list Z)
    : M (option (string * Mode * gmap Z MonConfig)) :=
  let! pairs := get_monitors conn outputs in
  let out_to_mon := collect_map pairs in
  match config !! monitors_key out_to_mon with
  | None => ret None
  | Some sc => ret (Some (sc_name sc, sc_fb_size sc, restrict_setup out_to_mon (sc_setup sc)))
  end.

(** ** Control loop *)

(** [switch_setup]: every error of the pass ends up in the log. *)
Definition switch_setup (config : Config) (conn : Conn) (force_print : bool) : M unit :=
  match c_screen_resources_current conn with
  | None => log (LogError ConnError)
  | Some res =>
      let! r := get_config config conn (res_outputs res) in
      match r with
      | None => log LogNoMatch
      | Some (nm, fb_size, setup) =>
          fun s => match apply_config conn res fb_size setup s with
                   | (s', Ok changed) =>
                       if changed || force_print then log (LogConfiguration nm) s'
                       else (s', Ok tt)
                   | (s', Err e) => log (LogError e) s'
                   end
      end
  end.

Definition run (m : M unit) (s : St) : St := fst (m s).

(** What [conn.wait_for_event()] returns; a screen change notification
    carries the server as the following pass sees it. *)
Inductive WaitResult :=
| ScreenChangeNotify (snapshot : Conn)
| OtherEvent
| WaitError.

(** The states the passes of the [loop] of [daemon] leave, over the events
    received so far, when no write to stdout or stderr fails. *)
Fixpoint event_loop (config : Config) (evs : list WaitResult) (s : St) : St :=
  match evs with
  | [] => s
  | ScreenChangeNotify c :: rest => event_loop config rest (run (switch_setup config c false) s)
  | OtherEvent :: rest => event_loop config rest s
  | WaitError :: rest => event_loop config rest s
  end.

(** Where the process is after the events received so far. *)
Inductive Outcome :=
| Waiting (s : St)        (* blocked in [wait_for_event] *)
| Exited (code : Z)       (* [std::process::exit] *)
| Panicked                (* a panic of the main thread *)
| Returned.               (* [daemon] returned [Ok(())] *)

(** The lines a pass writes to stdout or stderr itself: [eprintln!] for an
    unreadable EDID (lib.rs:60) and [println!] for the profile name
    (line 295).  Both macros panic when the write fails; the other
    messages go through the [log] facade. *)
Definition std_print (l : Log) : bool :=
  match l with
  | LogEdidError _ | LogConfiguration _ => true
  | _ => false
  end.

(** Whether one of the lines [new], written after [prev], is a
    [println!]/[eprintln!] whose write fails; [write_ok prev l] is the
    outcome of writing [l] after the lines [prev]. *)
Fixpoint print_fails (write_ok : list Log -> Log -> bool) (prev new : list Log) : bool :=
  match new with
  | [] => false
  | l :: rest => (std_print l && negb (write_ok prev l)) || print_fails write_ok (prev ++ [l]) rest
  end.

(** One call of [switch_setup] as the process sees it: [None] when one of
    its [println!]/[eprintln!] panics. *)
Definition pass (write_ok : list Log -> Log -> bool) (config : Config) (conn : Conn)
    (force_print : bool) (s : St) : option St :=
  let s' := run (switch_setup config conn force_print) s in
  if print_fails write_ok (st_logs s) (drop (length (st_logs s)) (st_logs s')) then None
  else Some s'.

(** The [loop] of [daemon], over the events received so far. *)
Fixpoint daemon_loop (write_ok : list Log -> Log -> bool) (config : Config)
    (evs : list WaitResult) (s : St) : Outcome :=
  match evs with
  | [] => Waiting s
  | ScreenChangeNotify c :: rest =>
      match pass write_ok config c false s with
      | None => Panicked
      | Some s' => daemon_loop write_ok config rest s'
      end
  | OtherEvent :: rest => daemon_loop write_ok config rest s
  | WaitError :: rest => daemon_loop write_ok config rest s
  end.

(** [daemon] once the configuration is loaded: [check] is the validate-only
    flag; [connect_ok], [atom_ok] and [notify_ok] are the outcomes of
    [connect], [edid_atom] and [setup_notify]; [write_ok] those of the
    writes to stdout and stderr. *)
Definition daemon (config : Config) (check connect_ok atom_ok notify_ok : bool)
    (write_ok : list Log -> Log -> bool)
    (conn : Conn) (evs : list WaitResult) (s0 : St) : Outcome :=
  if check then Returned
  else if negb connect_ok then Exited 1
  else if negb atom_ok then Exited 1
  else if negb notify_ok then Exited 1
  else match pass write_ok config conn true s0 with
       | None => Panicked
       | Some s1 => daemon_loop write_ok config evs s1
       end.

(** ** Concrete servers *)

(** Lookup in an association list of replies. *)
Definition assoc {A} (k : Z) (l : list (Z * A)) : option A :=
  match find (fun p => Z.eqb p.1 k) l with Some p => Some p.2 | None => None end.

(** A server with the given outputs, Crtcs, modes and root geometry, on
    which every request is delivered and replied with [status]. *)
Definition mk_conn (outputs : list (Z * GetOutputInfoReply)) (crtcs : list (Z * GetCrtcInfoReply))
    (modes : list ModeInfo) (geom : Z * Z) (edids : list (Z * Monitor))
    (status : SetCrtcConfigRequest -> Z) : Conn :=
  {| c_screen_resources_current :=
       Some {| res_crtcs := map fst crtcs; res_outputs := map fst outputs |};
     c_screen_resources := Some (modes, 1);
     c_output_property := fun o => match assoc o edids with
                                   | Some m => EdidMonitor m | None => EdidUnparsed end;
     c_output_info := fun o _ => assoc o outputs;
     c_crtc_info := fun c _ => assoc c crtcs;
     c_geometry := Some geom;
     c_send_ok := fun _ _ => true;
     c_reply := fun _ r => Some (status r);
     c_screen_size_sent := fun _ => true;
     c_screen_size_ok := fun _ => true |}.

Definition ex_s0 : St := {| st_trace := []; st_logs := [] |}.

Definition ex_1080p : Mode := {| w := 1920; h := 1080 |}.

Definition ex_modes : list ModeInfo :=
  [ {| mi_id := 70; mi_width := 1920; mi_height := 1080 |};
    {| mi_id := 71; mi_width := 1280; mi_height := 1024 |} ].

Definition ex_output (crtc : Z) : GetOutputInfoReply :=
  {| oi_crtc := crtc; oi_crtcs := [63; 64]; oi_modes := [70; 71];
     oi_mm_width := 520; oi_mm_height := 290 |}.

Definition ex_crtc (x0 y0 m : Z) (outs : list Z) : GetCrtcInfoReply :=
  {| ci_timestamp := 7; ci_x := x0; ci_y := y0; ci_mode := m; ci_rotation := 1;
     ci_outputs := outs |}.

Definition ex_monA : MonConfig :=
  {| name := "A"; mode := ex_1080p; position := {| x := 0; y := 0 |} |}.

Definition ex_monB : MonConfig :=
  {| name := "B"; mode := ex_1080p; position := {| x := 1920; y := 0 |} |}.

(** Output 66 (monitor A, no Crtc) is to show 1920x1080 at (0,0); Crtc 64
    still drives output 67 at 1280x1024; the screen is 2560x1440. *)
Definition ex_conn : Conn :=
  mk_conn [(66, ex_output 0); (67, ex_output 64)]
          [(63, ex_crtc 0 0 0 []); (64, ex_crtc 0 0 71 [67])]
          ex_modes (2560, 1440) [(66, 1)] (fun _ => SetConfig_SUCCESS).

Definition ex_res : GetScreenResourcesCurrentReply :=
  {| res_crtcs := [63; 64]; res_outputs := [66; 67] |}.

Definition ex_setup : gmap Z MonConfig := <[66 := ex_monA]> ∅.

Definition ex_queues (conn : Conn) (res : GetScreenResourcesCurrentReply)
    (setup : gmap Z MonConfig) : Queues :=
  match snd (compute_queues conn res setup ex_s0) with
  | Ok q => q
  | Err _ => {| q_disables := []; q_enables := []; q_current := ex_1080p; q_mm_w := 0; q_mm_h := 0 |}
  end.

(** Successive allocations of one pass: each call sees the free set the
    previous one left (the [&mut free_crtcs] threaded through the loop). *)
Fixpoint alloc_seq (infos : list GetOutputInfoReply) (free0 : gset Z)
    : list (option Z) * gset Z :=
  match infos with
  | [] => ([], free0)
  | info :: rest =>
      let '(d, free1) := allocate_crtc info free0 in
      let '(ds, free2) := alloc_seq rest free1 in
      (d :: ds, free2)
  end.

(** Monitor A on output 66 has no Crtc; monitor B on output 67 is bound to
    Crtc 63, which drives it at 1280x1024. *)
Definition ex_conn_shared : Conn :=
  mk_conn [(66, ex_output 0); (67, ex_output 63)]
          [(63, ex_crtc 0 0 71 [67]); (64, ex_crtc 0 0 0 [])]
          ex_modes (3840, 1080) [(66, 1); (67, 2)] (fun _ => SetConfig_SUCCESS).

Definition ex_setup_shared : gmap Z MonConfig := <[66 := ex_monA]> (<[67 := ex_monB]> ∅).

(** Monitor A on output 66 has no Crtc; Crtc 63 already shows 1920x1080
    at (0,0), but on output 67, whose monitor is gone; the screen is
    1920x1080. *)
Definition ex_conn_stale : Conn :=
  mk_conn [(66, ex_output 0); (67, ex_output 63)]
          [(63, ex_crtc 0 0 70 [67]); (64, ex_crtc 0 0 0 [])]
          ex_modes (1920, 1080) [(66, 1)] (fun _ => SetConfig_SUCCESS).

(** A profile set: [1] (monitor A alone) and [1; 3]. *)
Definition ex_config : Config :=
  <[ [1] := {| sc_name := "P1"; sc_setup := <[1 := ex_monA]> ∅; sc_fb_size := ex_1080p |} ]>
  (<[ [1; 3] := {| sc_name := "P2"; sc_setup := <[1 := ex_monA]> (<[3 := ex_monB]> ∅);
                  sc_fb_size := {| w := 3840; h := 1080 |} |} ]> ∅).

(** Whether [wait_for_event] returned [Ok(Event::RandrScreenChangeNotify(_))]. *)
Definition is_screen_change (ev : WaitResult) : bool :=
  match ev with ScreenChangeNotify _ => true | _ => false end.

(** A server that answers [Failed] to every request on Crtc 64. *)
Definition ex_conn_failing : Conn :=
  mk_conn [(66, ex_output 0); (67, ex_output 64)]
          [(63, ex_crtc 0 0 0 []); (64, ex_crtc 0 0 71 [67])]
          ex_modes (2560, 1440) [(66, 1)]
          (fun r => if Z.eqb (req_crtc r) 64 then SetConfig_FAILED else SetConfig_SUCCESS).

Definition ex_batch : list SetCrtcConfigRequest :=
  [disable_crtc 64 (ex_crtc 0 0 71 [67]);
   enable_request 63 (ex_crtc 0 0 0 []) {| x := 0; y := 0 |} 70 66].

(** The closure [|c| free.get(&c)] (and [|m| mode_ids.get(m)]) of a
    [find_map]: keep the element when it satisfies [P]. *)
Definition first_sat (P : Z -> Prop) `{!forall i, Decision (P i)} (i : Z) : option Z :=
  if decide (P i) then Some i else None.

(** A server that refuses to send any request for Crtc 63. *)
Definition ex_conn_refusing : Conn :=
  {| c_screen_resources_current := c_screen_resources_current ex_conn;
     c_screen_resources := c_screen_resources ex_conn;
     c_output_property := c_output_property ex_conn;
     c_output_info := c_output_info ex_conn;
     c_crtc_info := c_crtc_info ex_conn;
     c_geometry := c_geometry ex_conn;
     c_send_ok := fun _ r => negb (Z.eqb (req_crtc r) 63);
     c_reply := c_reply ex_conn;
     c_screen_size_sent := c_screen_size_sent ex_conn;
     c_screen_size_ok := c_screen_size_ok ex_conn |}.

(** The same monitor (identity 1) on outputs 66 and 67. *)
Definition ex_conn_mirror : Conn :=
  mk_conn [(66, ex_output 0); (67, ex_output 0)]
          [(63, ex_crtc 0 0 0 []); (64, ex_crtc 0 0 0 [])]
          ex_modes (1920, 1080) [(66, 1); (67, 1)] (fun _ => SetConfig_SUCCESS).

(** Output 66 asked to show 800x600, a size the server does not have. *)
Definition ex_setup_800 : gmap Z MonConfig :=
  <[66 := {| name := "A"; mode := {| w := 800; h := 600 |}; position := {| x := 0; y := 0 |} |}]> ∅.

(** Profile [1] already in place: output 66 (monitor A) on Crtc 63 at
    (0,0) in 1920x1080, Crtc 64 idle, the screen 1920x1080. *)
Definition ex_conn_settled : Conn :=
  mk_conn [(66, ex_output 63); (67, ex_output 0)]
          [(63, ex_crtc 0 0 70 [66]); (64, ex_crtc 0 0 0 [])]
          ex_modes (1920, 1080) [(66, 1)] (fun _ => SetConfig_SUCCESS).

(** ** Notions used by the properties *)

(** A computation that leaves the trace and the log as they were. *)
Definition state_preserving {A} (m : M A) : Prop := forall s, fst (m s) = s.

(** [m] issues [plan] when it succeeds with a value satisfying [Q], and a
    prefix of [plan] when it fails. *)
Definition emits {A} (m : M A) (plan : list Event) (Q : A -> Prop) : Prop :=
  forall s, match m s with
            | (s', Ok v) => Q v /\ st_trace s' = st_trace s ++ plan
            | (s', Err _) => exists p, p `prefix_of` plan /\ st_trace s' = st_trace s ++ p
            end.

(** The requests of one batch: all sent, then all replies awaited. *)
Definition batch_events (b : list SetCrtcConfigRequest) : list Event :=
  map SendCrtcConfig b ++ map AwaitReply b.

(** The write order that spec 4.4 step 5 asks for: disables, a growth to the
    component-wise maximum when needed, enables, the final size when needed. *)
Definition safe_commit_order (fb_size current : Mode)
    (disables enables : list SetCrtcConfigRequest) (mw mh : Z) : list Event :=
  let u := union current fb_size in
  batch_events disables
  ++ (if decide (current = u) then [] else [SendScreenSize (w u) (h u) mw mh])
  ++ batch_events enables
  ++ (if decide (u = fb_size) then [] else [SendScreenSize (w fb_size) (h fb_size) mw mh]).

Definition unchanged (fb_size current : Mode) (disables enables : list SetCrtcConfigRequest) : Prop :=
  disables = [] /\ enables = [] /\ current = fb_size.

(** A connection on which every send, reply and size change succeeds. *)
Definition reliable (conn : Conn) : Prop :=
  (forall t r, c_send_ok conn t r = true) /\
  (forall t r, is_Some (c_reply conn t r)) /\
  (forall t, c_screen_size_sent conn t = true) /\
  (forall t, c_screen_size_ok conn t = true).

Definition succeeds {A} (m : M A) : Prop := forall s, exists s' a, m s = (s', Ok a).

Definition is_disable (d : SetCrtcConfigRequest) : Prop := req_mode d = 0 /\ req_outputs d = [].

Definition failure_status (st : Z) : Prop :=
  st = SetConfig_INVALID_CONFIG_TIME \/ st = SetConfig_INVALID_TIME \/ st = SetConfig_FAILED.

(** The size of a server mode. *)
Definition mode_of (mi : ModeInfo) : Mode := {| w := mi_width mi; h := mi_height mi |}.

(** The server lists a mode with id [i] and size [m]. *)
Definition server_has (mis : list ModeInfo) (i : Z) (m : Mode) : Prop :=
  exists mi, In mi mis /\ mi_id mi = i /\ mode_of mi = m.

(** What the closure of [get_monitors] keeps of one output. *)
Definition read_monitor (conn : Conn) (o : Z) : option (Z * Monitor) :=
  match c_output_property conn o with EdidMonitor m => Some (o, m) | _ => None end.

(** The outputs whose EDID read fails with an error. *)
Definition edid_failed (conn : Conn) (o : Z) : bool :=
  match c_output_property conn o with EdidErr => true | _ => false end.

Definition sum_Z (l : list Z) : Z := fold_right Z.add 0 l.

(** The test of line 224: the Crtc drives an output or a mode. *)
Definition crtc_active (info : GetCrtcInfoReply) : Prop :=
  ci_outputs info <> [] \/ ci_mode info <> 0.

(** An enable request as lines 186 to 212 build it for a configured
    output [o]. *)
Definition enable_for (conn : Conn) (modes : gmap Mode (gset Z)) (ts : Z)
    (outs : list (MonConfig * Z)) (r : SetCrtcConfigRequest) : Prop :=
  exists conf o info ci,
    In (conf, o) outs /\ c_output_info conn o ts = Some info /\
    find_mode_id info modes (mode conf) = Ok (req_mode r) /\
    c_crtc_info conn (req_crtc r) ts = Some ci /\
    req_outputs r = [o] /\ req_x r = x (position conf) /\ req_y r = y (position conf) /\
    req_rotation r = 1 /\ req_timestamp r = ci_timestamp ci /\
    req_config_timestamp r = ci_timestamp ci /\
    (req_x r <> ci_x ci \/ req_y r <> ci_y ci \/ req_mode r <> ci_mode ci).

(** The loop state of [apply_config] before its first iteration. *)
Definition acc0 (res : GetScreenResourcesCurrentReply) : Acc :=
  {| free := list_to_set (res_crtcs res); enables := []; mm_w := 0; mm_h := 0 |}.

(** The [SetScreenSize] requests of a trace, as (width, height, mm width,
    mm height). *)
Fixpoint size_requests (evs : list Event) : list (Z * Z * Z * Z) :=
  match evs with
  | [] => []
  | SendScreenSize a b c d :: rest => (a, b, c, d) :: size_requests rest
  | _ :: rest => size_requests rest
  end.

(** The Crtc and outputs of each [SetCrtcConfig] of a trace, in order. *)
Fixpoint crtc_configs (evs : list Event) : list (Z * list Z) :=
  match evs with
  | [] => []
  | SendCrtcConfig r :: rest => (req_crtc r, req_outputs r) :: crtc_configs rest
  | _ :: rest => crtc_configs rest
  end.

(** * Properties *)

(** ** [find_map] with a decidable filter *)

Section FindFirst.
Context {P : Z -> Prop} `{!forall i, Decision (P i)}.

Lemma find_map_first_Some (l : list Z) (c : Z) :
  find_map (first_sat P) l = Some c <->
  exists pre post, l = pre ++ c :: post /\ P c /\ Forall (fun i => ~ P i) pre.
Proof.
  induction l as [|a l IH]; simpl.
  - split; [done|]. intros (pre & post & Hl & _). by destruct pre.
  - unfold first_sat at 1. destruct (decide (P a)) as [Ha|Ha].
    + split.
      * intros [= ->]. exists [], l. auto.
      * intros ([|b pre] & post & Hl & Hc & Hpre); simpl in Hl; injection Hl as -> Hl.
        -- done.
        -- by inversion Hpre.
    + rewrite IH. split.
      * intros (pre & post & -> & Hc & Hpre). exists (a :: pre), post. auto.
      * intros ([|b pre] & post & Hl & Hc & Hpre); simpl in Hl; injection Hl as -> Hl.
        -- done.
        -- inversion Hpre; subst. eauto.
Qed.

Lemma find_map_first_None (l : list Z) :
  find_map (first_sat P) l = None <-> Forall (fun i => ~ P i) l.
Proof.
  induction l as [|a l IH]; simpl.
  - split; auto.
  - unfold first_sat at 1. destruct (decide (P a)) as [Ha|Ha].
    + split; [done|]. intros Hf. by inversion Hf.
    + rewrite IH. split; [auto|]. intros Hf. by inversion Hf.
Qed.

Lemma find_map_first_In (l : list Z) (c : Z) :
  find_map (first_sat P) l = Some c -> In c l /\ P c.
Proof.
  rewrite find_map_first_Some. intros (pre & post & -> & Hc & _).
  split; [apply in_or_app; simpl; auto | done].
Qed.
End FindFirst.

(** ** C5: mode resolution *)

(** C5. [find_mode_id] fails with [ModeNotFound] exactly when the index has
    no entry for the target size; otherwise it fails with [ModeNotSupported]
    exactly when no id of the entry is among the output's supported ids;
    otherwise it returns an id in that intersection.  On the index
    {(800,600): {10,11}} with supported ids [11; 12] it returns 11. *)
Theorem find_mode_id_spec (info : GetOutputInfoReply) (mode_map : gmap Mode (gset Z)) (m : Mode) :
  (find_mode_id info mode_map m = Err (ModeNotFound m) <-> mode_map !! m = None) /\
  (find_mode_id info mode_map m = Err (ModeNotSupported m) <->
     exists ids, mode_map !! m = Some ids /\ forall i, In i (oi_modes info) -> i ∉ ids) /\
  (forall ids, mode_map !! m = Some ids -> (exists i, In i (oi_modes info) /\ i ∈ ids) ->
     exists i, find_mode_id info mode_map m = Ok i) /\
  (forall i, find_mode_id info mode_map m = Ok i ->
     exists ids, mode_map !! m = Some ids /\ In i (oi_modes info) /\ i ∈ ids) /\
  find_mode_id {| oi_crtc := 0; oi_crtcs := []; oi_modes := [11; 12];
                  oi_mm_width := 0; oi_mm_height := 0 |}
               (<[ {| w := 800; h := 600 |} := {[10; 11]} ]> ∅) {| w := 800; h := 600 |} = Ok 11.
Proof.
  unfold find_mode_id.
  destruct (mode_map !! m) as [ids|] eqn:Hm.
  - pose proof (find_map_first_None (P := fun i => i ∈ ids) (oi_modes info)) as HN.
    pose proof (find_map_first_In (P := fun i => i ∈ ids) (oi_modes info)) as HI.
    unfold first_sat in HN, HI.
    destruct (find_map _ (oi_modes info)) as [i|] eqn:Hf.
    + destruct (HI i eq_refl) as [Hin Hids].
      split; [split; [done|discriminate]|].
      split; [split; [discriminate|]|].
      { intros (ids' & [= <-] & Hno). exfalso. by apply (Hno i). }
      split; [eauto|]. split; [|reflexivity].
      intros i' [= <-]. eauto.
    + destruct HN as [HN _]. specialize (HN eq_refl).
      rewrite Forall_forall in HN.
      split; [split; [discriminate|done]|].
      split; [split; [intros _; exists ids; split; [done|]; intros i Hi; apply HN; by apply list_elem_of_In | done]|].
      split; [|split; [discriminate|reflexivity]].
      intros ids' [= <-] (i & Hi & Hids). exfalso. apply (HN i); [by apply list_elem_of_In|done].
  - split; [done|]. split; [split; [discriminate|intros (ids & ? & _); discriminate]|].
    split; [discriminate|]. split; [discriminate|reflexivity].
Qed.

(** ** C4: the allocator's choice *)

(** C4. If the output's bound Crtc is nonzero, [allocate_crtc] returns it,
    whatever the free set holds; otherwise it returns the first Crtc of the
    output's capable list that is free, and fails exactly when none is.  A
    failed allocation makes the loop of [apply_config] stop with
    [NoCrtc] carrying the monitor's name. *)
Theorem allocate_crtc_choice (info : GetOutputInfoReply) (free0 : gset Z) :
  (oi_crtc info <> 0 -> fst (allocate_crtc info free0) = Some (oi_crtc info)) /\
  (oi_crtc info = 0 -> forall c,
     fst (allocate_crtc info free0) = Some c <->
     exists pre post, oi_crtcs info = pre ++ c :: post /\ c ∈ free0 /\
                      Forall (fun c' => c' ∉ free0) pre) /\
  (fst (allocate_crtc info free0) = None <->
     oi_crtc info = 0 /\ Forall (fun c => c ∉ free0) (oi_crtcs info)) /\
  (forall conn modes timestamp conf out acc m s,
     free acc = free0 ->
     c_output_info conn out timestamp = Some info ->
     find_mode_id info modes (mode conf) = Ok m ->
     fst (allocate_crtc info free0) = None ->
     snd (configure_output conn modes timestamp conf out acc s) = Err (NoCrtc (name conf))).
Proof.
  pose proof (find_map_first_Some (P := fun c => c ∈ free0) (oi_crtcs info)) as HS.
  pose proof (find_map_first_None (P := fun c => c ∈ free0) (oi_crtcs info)) as HN.
  unfold first_sat in HS, HN.
  unfold allocate_crtc.
  split; [|split; [|split]].
  - intros Hc. by destruct (decide (oi_crtc info <> 0)).
  - intros Hc c. destruct (decide (oi_crtc info <> 0)); [done|].
    rewrite <- HS. destruct (find_map _ _); simpl; split; congruence.
  - destruct (decide (oi_crtc info <> 0)) as [Hc|Hc]; simpl.
    + split; [discriminate|tauto].
    + destruct (find_map _ _); simpl; split.
      * discriminate.
      * intros [_ HF]. apply HN in HF. discriminate.
      * intros _. split; [lia|]. by apply HN.
      * done.
  - intros conn modes timestamp conf out acc m s Hfree Hinfo Hmode Halloc.
    unfold configure_output, mbind, reply, lift, ret, fail.
    rewrite Hinfo, Hmode, Hfree.
    unfold allocate_crtc in Halloc |- *.
    destruct (if decide (oi_crtc info <> 0) then _ else _); [discriminate|reflexivity].
Qed.

(** ** Read-only computations *)

Lemma sp_ret {A} (a : A) : state_preserving (ret a).
Proof. done. Qed.

Lemma sp_fail {A} (e : Error) : state_preserving (@fail A e).
Proof. done. Qed.

Lemma sp_reply {A} (r : option A) : state_preserving (reply r).
Proof. by destruct r. Qed.

Lemma sp_lift {A} (r : Res A) : state_preserving (lift r).
Proof. by destruct r. Qed.

Lemma sp_bind {A B} (m : M A) (k : A -> M B) :
  state_preserving m -> (forall a, state_preserving (k a)) -> state_preserving (mbind m k).
Proof.
  intros Hm Hk s. unfold mbind. specialize (Hm s).
  destruct (m s) as [s' [a|e]]; simpl in *; subst; [apply Hk|done].
Qed.

Ltac sp_solve :=
  repeat first
    [ progress intros
    | apply sp_bind | apply sp_ret | apply sp_fail | apply sp_reply | apply sp_lift
    | match goal with |- state_preserving (match ?v with _ => _ end) => destruct v end ].

Lemma configure_outputs_sp conn modes timestamp outs acc :
  state_preserving (configure_outputs conn modes timestamp outs acc).
Proof.
  revert acc. induction outs as [|[conf out] outs IH]; simpl; [sp_solve|].
  intros acc. apply sp_bind; [|done].
  unfold configure_output. sp_solve.
Qed.

Lemma collect_disables_sp conn timestamp crtcs :
  state_preserving (collect_disables conn timestamp crtcs).
Proof. induction crtcs; simpl; sp_solve; done. Qed.

Lemma compute_queues_sp conn res setup : state_preserving (compute_queues conn res setup).
Proof.
  unfold compute_queues, mode_map. sp_solve.
  - apply configure_outputs_sp.
  - apply collect_disables_sp.
Qed.

(** ** Traces of write requests *)

Lemma emits_bind {A B} (m : M A) (k : A -> M B) P1 P2 P Q R :
  emits m P1 Q -> (forall a, Q a -> emits (k a) P2 R) -> P = P1 ++ P2 ->
  emits (mbind m k) P R.
Proof.
  intros Hm Hk -> s. unfold mbind. specialize (Hm s).
  destruct (m s) as [s1 [a|e]].
  - destruct Hm as [HQ Ht]. specialize (Hk a HQ s1).
    destruct (k a s1) as [s2 [b|e2]].
    + destruct Hk as [HR Ht2]. split; [done|]. by rewrite Ht2, Ht, app_assoc.
    + destruct Hk as (p & Hp & Ht2). exists (P1 ++ p). split; [by apply prefix_app|].
      by rewrite Ht2, Ht, app_assoc.
  - destruct Hm as (p & Hp & Ht). exists p. split; [by apply prefix_app_r|done].
Qed.

Lemma emits_ret {A} (a : A) (Q : A -> Prop) : Q a -> emits (ret a) [] Q.
Proof. intros HQ s. simpl. by rewrite app_nil_r. Qed.

Lemma emits_fail {A} (e : Error) P (Q : A -> Prop) : emits (fail e) P Q.
Proof. intros s. exists []. split; [apply prefix_nil|by rewrite app_nil_r]. Qed.

Lemma emits_reply {A} (r : option A) : emits (reply r) [] (fun _ => True).
Proof. destruct r; [by apply emits_ret|apply emits_fail]. Qed.

Lemma emits_emit e : emits (emit e) [e] (fun _ => True).
Proof. done. Qed.

Lemma emits_log l : emits (log l) [] (fun _ => True).
Proof. intros s. simpl. by rewrite app_nil_r. Qed.

Lemma emits_trace_now : emits trace_now [] (fun _ => True).
Proof. intros s. simpl. by rewrite app_nil_r. Qed.

Lemma emits_weaken {A} (m : M A) P (Q Q' : A -> Prop) :
  emits m P Q -> (forall a, Q a -> Q' a) -> emits m P Q'.
Proof.
  intros Hm HQ s. specialize (Hm s). destruct (m s) as [s' [a|e]]; [|done].
  destruct Hm; auto.
Qed.

Lemma send_all_emits conn b : emits (send_all conn b) (map SendCrtcConfig b) (fun _ => True).
Proof.
  induction b as [|r b IH]; simpl; [by apply emits_ret|].
  eapply emits_bind; [apply emits_trace_now| |done].
  intros t _. destruct (c_send_ok conn t r); [|apply emits_fail].
  eapply emits_bind; [apply emits_emit|intros; apply IH|done].
Qed.

Lemma reply_all_emits conn b : emits (reply_all conn b) (map AwaitReply b) (fun _ => True).
Proof.
  induction b as [|r b IH]; simpl; [by apply emits_ret|].
  eapply emits_bind; [apply emits_emit| |done]. intros _ _.
  eapply emits_bind; [apply emits_trace_now| |done]. intros t _.
  eapply emits_bind; [apply emits_reply| |done]. intros st _.
  eapply emits_bind; [apply IH| |by rewrite app_nil_r]. intros sts _.
  by apply emits_ret.
Qed.

Lemma log_statuses_emits num sts : emits (log_statuses num sts) [] (fun _ => True).
Proof.
  revert num. induction sts as [|st sts IH]; intros num; simpl; [by apply emits_ret|].
  eapply (emits_bind _ _ [] [] _ (fun _ => True)); [| intros; apply IH | done].
  repeat case_decide; (apply emits_log || by apply emits_ret).
Qed.

Lemma batch_config_emits conn b : emits (batch_config conn b) (batch_events b) (fun _ => True).
Proof.
  unfold batch_config, batch_events.
  eapply emits_bind; [apply send_all_emits| |done]. intros _ _.
  eapply emits_bind; [apply reply_all_emits| |by rewrite app_nil_r]. intros sts _.
  eapply emits_bind; [apply log_statuses_emits| |done]. intros _ _.
  by apply emits_ret.
Qed.

Lemma set_screen_size_emits conn wd ht mw mh :
  emits (set_screen_size conn wd ht mw mh) [SendScreenSize wd ht mw mh] (fun _ => True).
Proof.
  unfold set_screen_size.
  eapply emits_bind; [apply emits_trace_now| |done]. intros t0 _.
  destruct (c_screen_size_sent conn t0); [|apply emits_fail].
  eapply emits_bind; [apply emits_emit| |by rewrite app_nil_r]. intros _ _.
  eapply emits_bind; [apply emits_trace_now| |done]. intros t _.
  destruct (c_screen_size_ok conn t); [by apply emits_ret|apply emits_fail].
Qed.

(** ** The commit *)

Lemma commit_unchanged conn fb_size current disables enables mw mh s :
  unchanged fb_size current disables enables ->
  commit conn fb_size current disables enables mw mh s = (s, Ok false).
Proof.
  intros Hu. unfold commit. by destruct (decide _).
Qed.

Lemma commit_emits conn fb_size current disables enables mw mh :
  ~ unchanged fb_size current disables enables ->
  emits (commit conn fb_size current disables enables mw mh)
        (safe_commit_order fb_size current disables enables mw mh) (eq true).
Proof.
  intros Hu. unfold commit, safe_commit_order.
  destruct (decide _) as [Hd|_]; [by destruct Hu|].
  eapply emits_bind with (Q := fun _ => True); [| |reflexivity].
  { destruct (decide (disables <> [])) as [_|Hd].
    - apply batch_config_emits.
    - assert (disables = []) as -> by (destruct disables; [done|by destruct Hd]).
      by apply emits_ret. }
  intros _ _.
  eapply emits_bind with (Q := eq (union current fb_size)); [| |reflexivity].
  { destruct (decide (current <> union current fb_size)) as [Hc|Hc].
    - rewrite decide_False by done.
      eapply emits_bind; [apply set_screen_size_emits| |by rewrite app_nil_r].
      intros _ _. by apply emits_ret.
    - assert (current = union current fb_size) as Heq by (destruct (decide (current = union current fb_size)); tauto).
      rewrite decide_True by done. apply emits_ret. done. }
  intros u <-.
  eapply emits_bind; [apply batch_config_emits| |reflexivity]. intros _ _.
  eapply emits_bind with (Q := fun _ => True); [| |by rewrite app_nil_r].
  { destruct (decide (union current fb_size <> fb_size)) as [Hc|Hc].
    - rewrite decide_False by done. apply set_screen_size_emits.
    - rewrite decide_True by (destruct (decide (union current fb_size = fb_size)); tauto).
      by apply emits_ret. }
  intros _ _. by apply emits_ret.
Qed.

(** ** Runs where no request fails *)

Lemma succeeds_bind {A B} (m : M A) (k : A -> M B) :
  succeeds m -> (forall a, succeeds (k a)) -> succeeds (mbind m k).
Proof.
  intros Hm Hk s. destruct (Hm s) as (s1 & a & Ha).
  destruct (Hk a s1) as (s2 & b & Hb). exists s2, b. unfold mbind. by rewrite Ha.
Qed.

Lemma succeeds_ret {A} (a : A) : succeeds (ret a).
Proof. intros s. by exists s, a. Qed.

Lemma succeeds_emit e : succeeds (emit e).
Proof. intros s. eexists _, tt. reflexivity. Qed.

Lemma succeeds_log l : succeeds (log l).
Proof. intros s. eexists _, tt. reflexivity. Qed.

Lemma succeeds_trace_now : succeeds trace_now.
Proof. intros s. eexists _, _. reflexivity. Qed.

Lemma batch_config_succeeds conn b :
  (forall t r, c_send_ok conn t r = true) -> (forall t r, is_Some (c_reply conn t r)) ->
  succeeds (batch_config conn b).
Proof.
  intros Hsend Hreply. unfold batch_config.
  apply succeeds_bind; [|intros _; apply succeeds_bind; [|intros sts; apply succeeds_bind]].
  - induction b as [|r b IH]; simpl; [apply succeeds_ret|].
    apply succeeds_bind; [apply succeeds_trace_now|]. intros t.
    rewrite Hsend. apply succeeds_bind; [apply succeeds_emit|done].
  - induction b as [|r b IH]; simpl; [apply succeeds_ret|].
    apply succeeds_bind; [apply succeeds_emit|]. intros _.
    apply succeeds_bind; [apply succeeds_trace_now|]. intros t.
    destruct (Hreply t r) as [st ->]. simpl.
    apply succeeds_bind; [apply succeeds_ret|]. intros st'.
    apply succeeds_bind; [done|]. intros sts. apply succeeds_ret.
  - generalize 0%nat. induction sts as [|st sts IH]; intros num; simpl; [apply succeeds_ret|].
    apply succeeds_bind; [|done].
    repeat case_decide; (apply succeeds_log || apply succeeds_ret).
  - intros _. apply succeeds_ret.
Qed.

Lemma commit_succeeds conn fb_size current disables enables mw mh :
  reliable conn -> succeeds (commit conn fb_size current disables enables mw mh).
Proof.
  intros (Hsend & Hreply & Hsent & Hsize). unfold commit.
  destruct (decide _); [apply succeeds_ret|].
  assert (forall wd ht, succeeds (set_screen_size conn wd ht mw mh)) as Hss.
  { intros wd ht. unfold set_screen_size.
    apply succeeds_bind; [apply succeeds_trace_now|]. intros t0. rewrite Hsent.
    apply succeeds_bind; [apply succeeds_emit|]. intros _.
    apply succeeds_bind; [apply succeeds_trace_now|]. intros t.
    rewrite Hsize. apply succeeds_ret. }
  apply succeeds_bind; [case_decide; [by apply batch_config_succeeds|apply succeeds_ret]|].
  intros _. apply succeeds_bind.
  { case_decide; [apply succeeds_bind; [apply Hss|intros; apply succeeds_ret]|apply succeeds_ret]. }
  intros cur. apply succeeds_bind; [by apply batch_config_succeeds|].
  intros _. apply succeeds_bind; [case_decide; [apply Hss|apply succeeds_ret]|].
  intros _. apply succeeds_ret.
Qed.

Lemma apply_config_commit conn res fb_size setup s q :
  snd (compute_queues conn res setup s) = Ok q ->
  apply_config conn res fb_size setup s =
  commit conn fb_size (q_current q) (q_disables q) (q_enables q) (q_mm_w q) (q_mm_h q) s.
Proof.
  intros Hq. pose proof (compute_queues_sp conn res setup s) as Hs.
  unfold apply_config, mbind.
  destruct (compute_queues conn res setup s) as [s1 r]. simpl in Hq, Hs. by subst.
Qed.

Lemma collect_disables_disable conn timestamp crtcs s s' ds :
  collect_disables conn timestamp crtcs s = (s', Ok ds) -> Forall is_disable ds.
Proof.
  revert s s' ds. induction crtcs as [|c crtcs IH]; intros s s' ds H; simpl in H.
  - by injection H as _ <-.
  - unfold mbind, reply, ret, fail in H.
    destruct (c_crtc_info conn c timestamp) as [info|]; [|discriminate].
    destruct (collect_disables conn timestamp crtcs s) as [s1 [ds1|e]] eqn:Hc; [|discriminate].
    injection H as _ <-. apply IH in Hc.
    destruct (_ || _); [|done]. constructor; [|done]. by split.
Qed.

Lemma compute_queues_disable conn res setup s q :
  snd (compute_queues conn res setup s) = Ok q -> Forall is_disable (q_disables q).
Proof.
  unfold compute_queues, mbind.
  destruct (mode_map conn s) as [s1 [[modes ts]|e]]; [|discriminate].
  destruct (configure_outputs _ _ _ _ _ s1) as [s2 [acc|e]]; [|discriminate].
  destruct (collect_disables conn ts (elements (free acc)) s2) as [s3 [ds|e]] eqn:Hd; [|discriminate].
  unfold reply. destruct (c_geometry conn) as [[gw gh]|]; simpl; [|discriminate].
  intros [= <-]. simpl. by eapply collect_disables_disable.
Qed.

(** ** C1: when [apply_config] reports "unchanged" *)

(** C1. Once the queues are computed, [apply_config] returns [false]
    exactly when both queues are empty and the current framebuffer size is
    the target; it then issues no request (the state is untouched).  In
    every other case it commits (issues at least one request) and, when no
    request fails, returns [true]. *)
Theorem apply_config_unchanged_iff conn res fb_size setup s q :
  snd (compute_queues conn res setup s) = Ok q ->
  (snd (apply_config conn res fb_size setup s) = Ok false <->
     q_disables q = [] /\ q_enables q = [] /\ q_current q = fb_size) /\
  (q_disables q = [] /\ q_enables q = [] /\ q_current q = fb_size ->
     fst (apply_config conn res fb_size setup s) = s) /\
  (~ (q_disables q = [] /\ q_enables q = [] /\ q_current q = fb_size) ->
     reliable conn ->
     snd (apply_config conn res fb_size setup s) = Ok true /\
     st_trace (fst (apply_config conn res fb_size setup s)) <> st_trace s).
Proof.
  intros Hq. rewrite (apply_config_commit _ _ _ _ _ _ Hq).
  set (cur := q_current q). set (ds := q_disables q). set (es := q_enables q).
  assert (Hch : ~ unchanged fb_size cur ds es ->
                forall s' r, commit conn fb_size cur ds es (q_mm_w q) (q_mm_h q) s = (s', r) ->
                r <> Ok false).
  { intros Hu s' r Hc ->. pose proof (commit_emits conn fb_size cur ds es (q_mm_w q) (q_mm_h q) Hu s) as He.
    rewrite Hc in He. by destruct He. }
  split; [|split].
  - split.
    + intros Hr. destruct (decide (unchanged fb_size cur ds es)) as [Hu|Hu]; [done|].
      exfalso. destruct (commit _ _ _ _ _ _ _ s) as [s' r] eqn:Hc. simpl in Hr. subst r.
      by eapply Hch.
    + intros Hu. by rewrite commit_unchanged.
  - intros Hu. by rewrite commit_unchanged.
  - intros Hu Hrel.
    destruct (commit_succeeds conn fb_size cur ds es (q_mm_w q) (q_mm_h q) Hrel s) as (s' & b & Hc).
    pose proof (commit_emits conn fb_size cur ds es (q_mm_w q) (q_mm_h q) Hu s) as He.
    rewrite Hc in He |- *. destruct He as [<- Ht]. simpl. split; [done|].
    rewrite Ht. intros Heq.
    assert (safe_commit_order fb_size cur ds es (q_mm_w q) (q_mm_h q) = []) as Hnil.
    { apply (app_inv_head (st_trace s)). by rewrite app_nil_r. }
    unfold safe_commit_order, batch_events in Hnil.
    apply Hu. apply app_nil in Hnil as [Hd Hnil]. apply app_nil in Hd as [Hd _].
    apply app_nil in Hnil as [Hg Hnil]. apply app_nil in Hnil as [He Hf].
    apply app_nil in He as [He _].
    apply map_eq_nil in Hd, He.
    split; [done|]. split; [done|].
    destruct (decide (cur = union cur fb_size)) as [H1|H1]; [|discriminate].
    destruct (decide (union cur fb_size = fb_size)) as [H2|H2]; [|discriminate].
    by rewrite H1.
Qed.

(** ** C2: the order of the writes *)

(** C2. In a run of [apply_config] that commits (does not report
    "unchanged"), the writes issued are a prefix of [safe_commit_order] and
    all of it when the run returns [true]: first the disable batch (every
    request of which disables its Crtc), then, only if needed, a resize to
    the component-wise maximum of current and target (at least both in each
    dimension), then the enable batch, and only as the last write the resize
    to the target. *)
Theorem apply_config_commit_order conn res fb_size setup s q s' r :
  snd (compute_queues conn res setup s) = Ok q ->
  apply_config conn res fb_size setup s = (s', r) ->
  r <> Ok false ->
  let u := union (q_current q) fb_size in
  (w (q_current q) <= w u /\ h (q_current q) <= h u /\ w fb_size <= w u /\ h fb_size <= h u) /\
  Forall is_disable (q_disables q) /\
  (r = Ok true ->
     st_trace s' = st_trace s ++ safe_commit_order fb_size (q_current q) (q_disables q)
                                    (q_enables q) (q_mm_w q) (q_mm_h q)) /\
  (exists p, p `prefix_of` safe_commit_order fb_size (q_current q) (q_disables q)
                             (q_enables q) (q_mm_w q) (q_mm_h q) /\
             st_trace s' = st_trace s ++ p).
Proof.
  intros Hq Hrun Hr u.
  split; [unfold u, union; simpl; lia|].
  split; [by eapply compute_queues_disable|].
  rewrite (apply_config_commit _ _ _ _ _ _ Hq) in Hrun.
  assert (Hu : ~ unchanged fb_size (q_current q) (q_disables q) (q_enables q)).
  { intros Hu. rewrite commit_unchanged in Hrun by done. by injection Hrun as _ <-. }
  pose proof (commit_emits conn fb_size (q_current q) (q_disables q) (q_enables q)
                (q_mm_w q) (q_mm_h q) Hu s) as He.
  rewrite Hrun in He. destruct r as [b|e].
  - destruct He as [<- Ht]. split; [done|]. eexists; split; [reflexivity|done].
  - split; [discriminate|done].
Qed.

(** The server of [ex_conn]: a reliable connection. *)
Lemma mk_conn_reliable outputs crtcs modes geom edids status :
  reliable (mk_conn outputs crtcs modes geom edids status).
Proof. split; [done|split; [by eexists|split; done]]. Qed.

(** C1 at [ex_conn]: the queues are not empty and the run returns [true]. *)
Lemma apply_config_unchanged_iff_witness :
  snd (compute_queues ex_conn ex_res ex_setup ex_s0) = Ok (ex_queues ex_conn ex_res ex_setup) /\
  snd (apply_config ex_conn ex_res ex_1080p ex_setup ex_s0) = Ok true.
Proof.
  assert (Hq : snd (compute_queues ex_conn ex_res ex_setup ex_s0)
               = Ok (ex_queues ex_conn ex_res ex_setup)) by (vm_compute; reflexivity).
  split; [exact Hq|].
  apply (apply_config_unchanged_iff ex_conn ex_res ex_1080p ex_setup ex_s0 _ Hq).
  - vm_compute. intros [H _]. discriminate H.
  - apply mk_conn_reliable.
Defined.

(** C2 at [ex_conn]: disable Crtc 64, enable Crtc 63, then shrink the
    screen from 2560x1440 to 1920x1080. *)
Lemma apply_config_commit_order_witness :
  st_trace (fst (apply_config ex_conn ex_res ex_1080p ex_setup ex_s0)) =
  st_trace ex_s0 ++ safe_commit_order ex_1080p {| w := 2560; h := 1440 |}
    (q_disables (ex_queues ex_conn ex_res ex_setup))
    (q_enables (ex_queues ex_conn ex_res ex_setup)) 520 290.
Proof.
  apply (apply_config_commit_order ex_conn ex_res ex_1080p ex_setup ex_s0
           (ex_queues ex_conn ex_res ex_setup)
           (fst (apply_config ex_conn ex_res ex_1080p ex_setup ex_s0))
           (snd (apply_config ex_conn ex_res ex_1080p ex_setup ex_s0))).
  - vm_compute. reflexivity.
  - apply surjective_pairing.
  - vm_compute. discriminate.
  - vm_compute. reflexivity.
Defined.

(** ** C3: the free set *)

Lemma allocate_crtc_Some info (free0 fr : gset Z) c :
  allocate_crtc info free0 = (Some c, fr) -> fr = free0 ∖ {[c]}.
Proof.
  unfold allocate_crtc. destruct (if decide _ then _ else _); by intros [= -> ->].
Qed.

Lemma allocate_crtc_None info (free0 fr : gset Z) :
  allocate_crtc info free0 = (None, fr) -> fr = free0.
Proof.
  unfold allocate_crtc. destruct (if decide _ then _ else _); by intros [= ->].
Qed.

Lemma allocate_crtc_unbound info (free0 fr : gset Z) c :
  oi_crtc info = 0 -> allocate_crtc info free0 = (Some c, fr) -> c ∈ free0.
Proof.
  intros H0. unfold allocate_crtc. rewrite decide_False by lia.
  pose proof (find_map_first_In (P := fun c => c ∈ free0) (oi_crtcs info)) as HI.
  unfold first_sat in HI.
  destruct (find_map _ _) as [d|]; [|discriminate].
  intros [= -> _]. by apply (HI c).
Qed.

Lemma alloc_seq_inv (pre : list GetOutputInfoReply) (free0 : gset Z) :
  snd (alloc_seq pre free0) ⊆ free0 /\
  forall c, Some c ∈ fst (alloc_seq pre free0) -> c ∉ snd (alloc_seq pre free0).
Proof.
  revert free0. induction pre as [|info pre IH]; intros free0; simpl.
  - split; [done|]. intros c Hc. by apply elem_of_nil in Hc.
  - destruct (allocate_crtc info free0) as [[d|] free1] eqn:Ha.
    + apply allocate_crtc_Some in Ha as ->.
      destruct (IH (free0 ∖ {[d]})) as [Hsub Hnot].
      destruct (alloc_seq pre _) as [ds free2]; simpl in *.
      split; [set_solver|]. intros c [[= ->]|Hc]%elem_of_cons; [set_solver|auto].
    + apply allocate_crtc_None in Ha as ->.
      destruct (IH free0) as [Hsub Hnot].
      destruct (alloc_seq pre _) as [ds free2]; simpl in *.
      split; [done|]. intros c [Hc|Hc]%elem_of_cons; [discriminate|auto].
Qed.

(** What allocation does keep along any sequence of allocations of one
    pass: the free set only loses elements, each allocation removing the
    Crtc it returns and a failed one leaving the set alone, and no Crtc
    returned earlier is free again.  An allocation through the capable list
    (bound Crtc 0) returns a free Crtc, hence one distinct from every Crtc
    returned earlier, and strictly shrinks the free set.  A nonzero bound
    Crtc is returned without looking at the free set. *)
Theorem allocate_crtc_free_set (pre : list GetOutputInfoReply) (info : GetOutputInfoReply)
    (free0 : gset Z) :
  let earlier := fst (alloc_seq pre free0) in
  let fr := snd (alloc_seq pre free0) in
  fr ⊆ free0 /\
  (forall c, Some c ∈ earlier -> c ∉ fr) /\
  (forall c fr', allocate_crtc info fr = (Some c, fr') -> fr' = fr ∖ {[c]} /\ c ∉ fr') /\
  (forall fr', allocate_crtc info fr = (None, fr') -> fr' = fr) /\
  (oi_crtc info = 0 -> forall c fr', allocate_crtc info fr = (Some c, fr') ->
     c ∈ fr /\ (Some c ∉ earlier) /\ (size fr' < size fr)%nat).
Proof.
  intros earlier fr. destruct (alloc_seq_inv pre free0) as [Hsub Hnot].
  split; [done|]. split; [done|].
  split; [intros c fr' Ha; apply allocate_crtc_Some in Ha as ->; set_solver|].
  split; [apply allocate_crtc_None|].
  intros H0 c fr' Ha.
  pose proof (allocate_crtc_unbound _ _ _ _ H0 Ha) as Hc.
  apply allocate_crtc_Some in Ha as ->.
  split; [done|]. split; [intros He; by apply (Hnot c)|].
  apply subset_size. set_solver.
Qed.

(** C3 (failing input).  Output 66 has no Crtc and takes Crtc 63, the
    first free one of its capable list; output 67 is bound to Crtc 63, and
    its allocation returns Crtc 63 again without looking at the free set,
    although Crtc 64 is still free.  The pass sends two [SetCrtcConfig]
    requests for Crtc 63, first for output 66, then for output 67: the
    second rebinds the Crtc to output 67 and output 66 is left without one,
    while [apply_config] reports success. *)
Theorem allocate_crtc_reuses_crtc :
  alloc_seq [ex_output 0; ex_output 63] {[63; 64]} = ([Some 63; Some 63], {[64]}) /\
  map (fun r => (req_crtc r, req_outputs r))
      (q_enables (ex_queues ex_conn_shared ex_res ex_setup_shared)) = [(63, [66]); (63, [67])] /\
  crtc_configs (st_trace (fst (apply_config ex_conn_shared ex_res {| w := 3840; h := 1080 |}
                                 ex_setup_shared ex_s0))) = [(63, [66]); (63, [67])] /\
  snd (apply_config ex_conn_shared ex_res {| w := 3840; h := 1080 |} ex_setup_shared ex_s0)
    = Ok true.
Proof. vm_compute. repeat split. Qed.

(** ** C9: when an enable request is queued *)

(** C9 (failing input).  Output 66 has no Crtc and is given Crtc 63, which
    already has the wanted position and mode but drives output 67.  The
    test of line 204 compares only position and mode, so no request is
    queued for output 66, nothing is disabled, and [apply_config] reports
    "unchanged" without a single write: output 66 stays off. *)
Theorem apply_config_ignores_crtc_binding :
  oi_crtc (ex_output 0) = 0 /\
  ci_outputs (ex_crtc 0 0 70 [67]) = [67] /\
  q_enables (ex_queues ex_conn_stale ex_res ex_setup) = [] /\
  apply_config ex_conn_stale ex_res ex_1080p ex_setup ex_s0 = (ex_s0, Ok false).
Proof. vm_compute. repeat split. Qed.

(** ** C10: the event loop *)

Lemma event_loop_filter config evs s :
  event_loop config evs s = event_loop config (List.filter is_screen_change evs) s.
Proof.
  revert s. induction evs as [|[c| |] evs IH]; intros s; simpl; auto.
Qed.

Lemma print_fails_some write_ok prev new :
  print_fails write_ok prev new = true ->
  exists prev' l, std_print l = true /\ write_ok prev' l = false.
Proof.
  revert prev. induction new as [|l new IH]; intros prev; simpl; [discriminate|].
  intros [Hl|Hr]%orb_true_iff; [|by apply (IH (prev ++ [l]))].
  apply andb_true_iff in Hl as [Hp Hw]. apply negb_true_iff in Hw. by exists prev, l.
Qed.

Lemma print_fails_none write_ok prev new :
  (forall prev l, std_print l = true -> write_ok prev l = true) ->
  print_fails write_ok prev new = false.
Proof.
  intros Hok. revert prev. induction new as [|l new IH]; intros prev; simpl; [done|].
  rewrite IH, orb_false_r. destruct (std_print l) eqn:Hp; [|done].
  by rewrite (Hok prev l Hp).
Qed.

Lemma pass_run write_ok config conn force s :
  pass write_ok config conn force s = None \/
  pass write_ok config conn force s = Some (run (switch_setup config conn force) s).
Proof. unfold pass. destruct (print_fails _ _ _); auto. Qed.

Lemma pass_None write_ok config conn force s :
  pass write_ok config conn force s = None ->
  exists prev l, std_print l = true /\ write_ok prev l = false.
Proof.
  unfold pass. destruct (print_fails _ _ _) eqn:Hf; [|discriminate].
  intros _. by eapply print_fails_some.
Qed.

Lemma pass_ok write_ok config conn force s :
  (forall prev l, std_print l = true -> write_ok prev l = true) ->
  pass write_ok config conn force s = Some (run (switch_setup config conn force) s).
Proof. intros Hok. unfold pass. by rewrite print_fails_none. Qed.

Lemma daemon_loop_cases write_ok config evs s :
  (daemon_loop write_ok config evs s = Panicked /\
   exists prev l, std_print l = true /\ write_ok prev l = false) \/
  daemon_loop write_ok config evs s = Waiting (event_loop config evs s).
Proof.
  revert s. induction evs as [|[c| |] evs IH]; intros s; simpl; auto.
  destruct (pass_run write_ok config c false s) as [Hp|Hp]; rewrite Hp.
  - left. split; [done|]. by eapply pass_None.
  - apply IH.
Qed.

Lemma daemon_loop_ok write_ok config evs s :
  (forall prev l, std_print l = true -> write_ok prev l = true) ->
  daemon_loop write_ok config evs s = Waiting (event_loop config evs s).
Proof.
  intros Hok. revert s. induction evs as [|[c| |] evs IH]; intros s; simpl; auto.
  rewrite pass_ok by done. apply IH.
Qed.

(** C10 (corrected).  Once connecting, interning the EDID atom and
    subscribing have succeeded, the daemon never returns and never calls
    [exit]: after any sequence of events it is either still blocked in
    [wait_for_event], having run the forced initial pass and one pass per
    screen change notification (other events and wait errors are dropped
    without a pass), or it has panicked, which happens only when a
    [println!] or [eprintln!] of a pass cannot write its line.  When every
    such write succeeds, it is always blocked in [wait_for_event]. *)
Theorem daemon_ends_only_by_panic config conn evs s0 write_ok :
  let o := daemon config false true true true write_ok conn evs s0 in
  let waiting := Waiting (event_loop config (List.filter is_screen_change evs)
                                     (run (switch_setup config conn true) s0)) in
  (o = waiting \/ o = Panicked) /\
  (o = Panicked -> exists prev l, std_print l = true /\ write_ok prev l = false) /\
  ((forall prev l, std_print l = true -> write_ok prev l = true) -> o = waiting) /\
  o <> Returned /\ (forall code, o <> Exited code) /\
  (forall s, daemon_loop write_ok config (OtherEvent :: evs) s = daemon_loop write_ok config evs s) /\
  (forall s, daemon_loop write_ok config (WaitError :: evs) s = daemon_loop write_ok config evs s).
Proof.
  intros o waiting. unfold o, waiting, daemon. simpl. rewrite <- event_loop_filter.
  destruct (pass_run write_ok config conn true s0) as [Hp|Hp]; rewrite Hp.
  - split; [by right|]. split; [intros _; by eapply pass_None|].
    split; [intros Hok; by rewrite pass_ok in Hp|]. by repeat split.
  - destruct (daemon_loop_cases write_ok config evs (run (switch_setup config conn true) s0))
      as [[Hd Hf]|Hd]; rewrite Hd.
    + split; [by right|]. split; [done|].
      split; [intros Hok; by rewrite daemon_loop_ok in Hd|]. by repeat split.
    + split; [by left|]. split; [discriminate|]. by repeat split.
Qed.

(** C10 fails: stdout is a pipe whose reader goes away after the first
    line.  The initial pass prints "P1"; the screen change to [ex_conn]
    reconfigures output 66 and prints "P1" again, and that [println!]
    panics, ending the process. *)
Lemma daemon_panics_on_failed_print :
  let write_ok := fun (prev : list Log) (_ : Log) => bool_decide (prev = []) in
  run (switch_setup ex_config ex_conn_settled true) ex_s0
    = {| st_trace := []; st_logs := [LogConfiguration "P1"] |} /\
  run (switch_setup ex_config ex_conn false) (run (switch_setup ex_config ex_conn_settled true) ex_s0)
    = {| st_trace := st_trace (run (switch_setup ex_config ex_conn false) ex_s0);
         st_logs := [LogConfiguration "P1"; LogConfiguration "P1"] |} /\
  daemon ex_config false true true true write_ok ex_conn_settled [] ex_s0
    = Waiting {| st_trace := []; st_logs := [LogConfiguration "P1"] |} /\
  daemon ex_config false true true true write_ok ex_conn_settled [ScreenChangeNotify ex_conn] ex_s0
    = Panicked.
Proof. vm_compute. repeat split. Qed.

(** ** The identity reader and the canonical key *)

Lemma get_monitors_spec conn outputs s :
  exists pairs logs,
    get_monitors conn outputs s =
      ({| st_trace := st_trace s; st_logs := st_logs s ++ logs |}, Ok pairs) /\
    Forall (fun l => exists o, l = LogEdidError o) logs.
Proof.
  revert s. induction outputs as [|o outputs IH]; intros s; simpl.
  - exists [], []. rewrite app_nil_r. by destruct s.
  - destruct (c_output_property conn o) as [| |m].
    + unfold mbind. simpl.
      destruct (IH {| st_trace := st_trace s; st_logs := st_logs s ++ [LogEdidError o] |})
        as (pairs & logs & Hg & Hl).
      rewrite Hg. exists pairs, (LogEdidError o :: logs). simpl.
      rewrite <- app_assoc. split; [done|]. constructor; eauto.
    + apply IH.
    + unfold mbind. destruct (IH s) as (pairs & logs & Hg & Hl). rewrite Hg.
      by exists ((o, m) :: pairs), logs.
Qed.

Lemma insert_sorted_perm a l : insert_sorted a l ≡ₚ a :: l.
Proof.
  induction l as [|b l IH]; simpl; [done|].
  destruct (Z.leb a b); [done|]. rewrite IH. constructor.
Qed.

Lemma sort_perm l : sort l ≡ₚ l.
Proof.
  induction l as [|a l IH]; simpl; [done|]. by rewrite insert_sorted_perm, IH.
Qed.

Lemma insert_sorted_hd a b l : Z.le b a -> HdRel Z.le b l -> HdRel Z.le b (insert_sorted a l).
Proof.
  intros Hba Hl. destruct l as [|c l]; simpl; [by constructor|].
  destruct (Z.leb a c); constructor; [done|]. by inversion Hl.
Qed.

Lemma insert_sorted_sorted a l : Sorted Z.le l -> Sorted Z.le (insert_sorted a l).
Proof.
  induction l as [|b l IH]; intros Hs; simpl; [by repeat constructor|].
  destruct (Z.leb_spec a b) as [Hab|Hab].
  - constructor; [done|]. by constructor.
  - inversion Hs as [|? ? Hl Hhd]; subst. constructor; [by apply IH|].
    apply insert_sorted_hd; [lia|done].
Qed.

Lemma sort_sorted l : Sorted Z.le (sort l).
Proof. induction l; simpl; [constructor|by apply insert_sorted_sorted]. Qed.

Lemma sort_canonical l1 l2 : l1 ≡ₚ l2 -> sort l1 = sort l2.
Proof.
  intros Hp. apply (Sorted_unique Z.le); [apply sort_sorted|apply sort_sorted|].
  by rewrite !sort_perm.
Qed.

Lemma get_config_unfold config conn outputs s s1 pairs :
  get_monitors conn outputs s = (s1, Ok pairs) ->
  get_config config conn outputs s =
    (s1, Ok (match config !! monitors_key (collect_map pairs) with
             | None => None
             | Some sc => Some (sc_name sc, sc_fb_size sc,
                                restrict_setup (collect_map pairs) (sc_setup sc))
             end)).
Proof.
  intros Hg. unfold get_config, mbind. rewrite Hg.
  by destruct (config !! _).
Qed.

(** ** C8: profile matching *)

(** C8. The key looked up is the sorted list of the live monitor
    identities, the same for any order in which they are listed.  When a
    profile has exactly that key, [get_config] returns its name, its
    framebuffer size and the outputs of the live set whose monitor the
    profile configures; when no profile has it, [get_config] returns no
    match.  A returned profile's key is always a permutation of the live
    identities, so a key with one identity more or less never matches. *)
Theorem get_config_exact_match config conn outputs s s1 pairs :
  get_monitors conn outputs s = (s1, Ok pairs) ->
  let out_to_mon := collect_map pairs in
  let key := monitors_key out_to_mon in
  Sorted Z.le key /\
  key ≡ₚ map snd (map_to_list out_to_mon) /\
  (forall l, l ≡ₚ map snd (map_to_list out_to_mon) -> sort l = key) /\
  (forall sc, config !! key = Some sc ->
     get_config config conn outputs s =
       (s1, Ok (Some (sc_name sc, sc_fb_size sc, restrict_setup out_to_mon (sc_setup sc))))) /\
  (config !! key = None -> get_config config conn outputs s = (s1, Ok None)) /\
  (forall nm fb setup, snd (get_config config conn outputs s) = Ok (Some (nm, fb, setup)) ->
     exists K sc, config !! K = Some sc /\ K ≡ₚ map snd (map_to_list out_to_mon) /\
                  nm = sc_name sc /\ fb = sc_fb_size sc) /\
  (forall (msetup : gmap Monitor MonConfig) o mc,
     restrict_setup out_to_mon msetup !! o = Some mc <->
     exists mon, out_to_mon !! o = Some mon /\ msetup !! mon = Some mc).
Proof.
  intros Hg out_to_mon key.
  pose proof (get_config_unfold config conn outputs s s1 pairs Hg) as Hc.
  split; [apply sort_sorted|]. split; [apply sort_perm|].
  split; [intros l Hl; by apply sort_canonical|].
  split; [intros sc Hsc; rewrite Hc; fold out_to_mon key; by rewrite Hsc|].
  split; [intros Hn; rewrite Hc; fold out_to_mon key; by rewrite Hn|].
  split.
  - intros nm fb setup. rewrite Hc. fold out_to_mon key. simpl.
    destruct (config !! key) as [sc|] eqn:Hk; [|discriminate].
    intros [= <- <- _]. exists key, sc. split; [done|]. split; [apply sort_perm|done].
  - intros msetup o mc. unfold restrict_setup. rewrite lookup_omap.
    destruct (out_to_mon !! o) as [mon|]; simpl.
    + split; [eauto|]. by intros (mon' & [= <-] & ?).
    + split; [discriminate|]. by intros (? & ? & _).
Qed.

(** C8 at [ex_conn]: only monitor A (identity 1) is attached; profile
    [1] is chosen, not [1; 3]. *)
Lemma get_config_exact_match_witness :
  get_monitors ex_conn [66; 67] ex_s0 = (ex_s0, Ok [(66, 1)]) /\
  get_config ex_config ex_conn [66; 67] ex_s0 =
    (ex_s0, Ok (Some ("P1"%string, ex_1080p,
                      restrict_setup (collect_map [(66, 1)]) (<[1 := ex_monA]> ∅)))).
Proof.
  assert (Hg : get_monitors ex_conn [66; 67] ex_s0 = (ex_s0, Ok [(66, 1)]))
    by (vm_compute; reflexivity).
  split; [exact Hg|].
  destruct (get_config_exact_match ex_config ex_conn [66; 67] ex_s0 ex_s0 [(66, 1)] Hg)
    as (_ & _ & _ & Hsome & _).
  refine (Hsome {| sc_name := "P1"; sc_setup := <[1 := ex_monA]> ∅; sc_fb_size := ex_1080p |} _).
  vm_compute. reflexivity.
Defined.

(** ** C6: no profile, no write *)

(** C6. When the sorted live identities are the key of no profile, a
    synchronization pass issues no request at all: its only effects are
    the messages of unreadable EDIDs and the "did not match a config"
    error, after which it returns (no retry, no fallback profile). *)
Theorem switch_setup_no_match config conn force res s s1 pairs :
  c_screen_resources_current conn = Some res ->
  get_monitors conn (res_outputs res) s = (s1, Ok pairs) ->
  config !! monitors_key (collect_map pairs) = None ->
  run (switch_setup config conn force) s =
    {| st_trace := st_trace s; st_logs := st_logs s1 ++ [LogNoMatch] |} /\
  st_trace s1 = st_trace s /\
  exists edid_logs, st_logs s1 = st_logs s ++ edid_logs /\
                    Forall (fun l => exists o, l = LogEdidError o) edid_logs.
Proof.
  intros Hres Hg Hk.
  destruct (get_monitors_spec conn (res_outputs res) s) as (pairs' & logs & Hg' & Hl).
  rewrite Hg in Hg'. injection Hg' as -> <-. simpl.
  split; [|split; [done|eauto]].
  unfold run, switch_setup. rewrite Hres. cbv beta iota. unfold mbind.
  rewrite (get_config_unfold config conn (res_outputs res) s _ pairs Hg), Hk.
  reflexivity.
Qed.

(** C6 at [ex_conn_shared]: monitors 1 and 2 are attached, no profile has
    the key [1; 2]. *)
Lemma switch_setup_no_match_witness :
  run (switch_setup ex_config ex_conn_shared false) ex_s0 =
    {| st_trace := []; st_logs := [LogNoMatch] |}.
Proof.
  destruct (switch_setup_no_match ex_config ex_conn_shared false
              {| res_crtcs := [63; 64]; res_outputs := [66; 67] |} ex_s0 ex_s0 [(66, 1); (67, 2)])
    as (Hrun & _).
  - reflexivity.
  - vm_compute. reflexivity.
  - vm_compute. reflexivity.
  - exact Hrun.
Defined.

(** ** C7: batches *)

Lemma send_all_delivered conn b s :
  (forall t r, c_send_ok conn t r = true) ->
  send_all conn b s =
    ({| st_trace := st_trace s ++ map SendCrtcConfig b; st_logs := st_logs s |}, Ok tt).
Proof.
  intros Hsend. revert s. induction b as [|r b IH]; intros s; simpl.
  - rewrite app_nil_r. by destruct s.
  - unfold mbind, trace_now. rewrite Hsend. simpl. rewrite IH. simpl.
    by rewrite <- app_assoc.
Qed.

Lemma reply_all_delivered conn b s :
  (forall t r, is_Some (c_reply conn t r)) ->
  exists sts,
    reply_all conn b s =
      ({| st_trace := st_trace s ++ map AwaitReply b; st_logs := st_logs s |}, Ok sts) /\
    length sts = length b /\
    forall j q st, b !! j = Some q -> sts !! j = Some st ->
      c_reply conn (st_trace s ++ map AwaitReply (take (S j) b)) q = Some st.
Proof.
  intros Hreply. revert s. induction b as [|r b IH]; intros s; simpl.
  - exists []. rewrite app_nil_r. destruct s. split; [done|]. split; [done|].
    intros j q st Hq. by rewrite lookup_nil in Hq.
  - unfold mbind at 1. simpl. unfold mbind at 1, trace_now. simpl.
    destruct (Hreply (st_trace s ++ [AwaitReply r]) r) as [st Hst].
    unfold mbind at 1, reply. rewrite Hst. simpl.
    destruct (IH {| st_trace := st_trace s ++ [AwaitReply r]; st_logs := st_logs s |})
      as (sts & Hr & Hlen & Hsts).
    unfold mbind. rewrite Hr. exists (st :: sts). simpl.
    rewrite <- app_assoc. split; [done|]. split; [by rewrite Hlen|].
    intros [|j] q st' Hq Hst'; simpl in Hq, Hst'.
    + injection Hq as <-. injection Hst' as <-. simpl. done.
    + specialize (Hsts j q st' Hq Hst'). simpl in Hsts. by rewrite <- app_assoc in Hsts.
Qed.

Lemma log_statuses_logs num sts s :
  exists L,
    log_statuses num sts s =
      ({| st_trace := st_trace s; st_logs := st_logs s ++ L |}, Ok tt) /\
    (forall l, l ∈ L -> exists j st, l = LogRequestFailed j st) /\
    (forall j st, LogRequestFailed j st ∈ L <->
       exists k, j = (num + k)%nat /\ sts !! k = Some st /\ failure_status st).
Proof.
  revert num s. induction sts as [|st sts IH]; intros num s; simpl.
  - exists []. rewrite app_nil_r. destruct s. split; [done|]. split.
    + intros l Hl. by apply elem_of_nil in Hl.
    + intros j st. split; [intros Hl; by apply elem_of_nil in Hl|].
      intros (k & _ & Hk & _). by rewrite lookup_nil in Hk.
  - set (L0 := if decide (failure_status st) then [LogRequestFailed num st] else []).
    assert (Hstep : (if decide (st = SetConfig_INVALID_CONFIG_TIME)
                     then log (LogRequestFailed num st)
                     else if decide (st = SetConfig_INVALID_TIME)
                     then log (LogRequestFailed num st)
                     else if decide (st = SetConfig_FAILED)
                     then log (LogRequestFailed num st)
                     else ret tt) s =
                    ({| st_trace := st_trace s; st_logs := st_logs s ++ L0 |}, Ok tt)).
    { unfold L0, failure_status, SetConfig_INVALID_CONFIG_TIME, SetConfig_INVALID_TIME,
        SetConfig_FAILED in *.
      repeat case_decide; try lia; try reflexivity.
      simpl. rewrite app_nil_r. by destruct s. }
    unfold mbind at 1. rewrite Hstep.
    destruct (IH (S num) {| st_trace := st_trace s; st_logs := st_logs s ++ L0 |})
      as (L & Hl & Hall & Hiff).
    exists (L0 ++ L). rewrite Hl. simpl. rewrite <- app_assoc. split; [done|]. split.
    + intros l [Hl0|HL]%elem_of_app; [|by apply Hall].
      unfold L0 in Hl0. case_decide; [|by apply elem_of_nil in Hl0].
      apply list_elem_of_singleton in Hl0. eauto.
    + intros j st'. rewrite elem_of_app, Hiff. split.
      * intros [Hl0|(k & -> & Hk & Hf)].
        -- unfold L0 in Hl0. case_decide; [|by apply elem_of_nil in Hl0].
           apply list_elem_of_singleton in Hl0. injection Hl0 as -> ->.
           exists 0%nat. split; [lia|done].
        -- exists (S k). split; [lia|done].
      * intros ([|k] & -> & Hk & Hf); simpl in Hk.
        -- left. injection Hk as ->. unfold L0. rewrite decide_True by done.
           rewrite Nat.add_0_r. by apply list_elem_of_singleton.
        -- right. exists k. split; [lia|done].
Qed.

(** C7. [batch_config] issues at most the sends of the whole batch
    followed by the awaits of their replies, never an await before the last
    send.  When every send and reply gets through it returns [Ok] whatever
    the statuses: the reply to the [j]-th request is read after all sends
    and the first [j] awaits, every failure status (invalid config time,
    invalid time, failed) is logged with its index, the others are not, and
    nothing but the batch is sent. *)
Theorem batch_config_pipelined conn batch s s' r :
  batch_config conn batch s = (s', r) ->
  (exists p, p `prefix_of` batch_events batch /\ st_trace s' = st_trace s ++ p) /\
  ((forall t q, c_send_ok conn t q = true) -> (forall t q, is_Some (c_reply conn t q)) ->
   r = Ok tt /\
   st_trace s' = st_trace s ++ map SendCrtcConfig batch ++ map AwaitReply batch /\
   exists statuses L,
     length statuses = length batch /\
     (forall j q st, batch !! j = Some q -> statuses !! j = Some st ->
        c_reply conn (st_trace s ++ map SendCrtcConfig batch ++ map AwaitReply (take (S j) batch)) q
        = Some st) /\
     st_logs s' = st_logs s ++ L /\
     (forall l, l ∈ L -> exists j st, l = LogRequestFailed j st) /\
     (forall j st, LogRequestFailed j st ∈ L <-> statuses !! j = Some st /\ failure_status st)).
Proof.
  intros Hrun. split.
  { pose proof (batch_config_emits conn batch s) as He. rewrite Hrun in He.
    destruct r; [|done]. destruct He as [_ Ht]. eexists; split; [reflexivity|done]. }
  intros Hsend Hreply.
  unfold batch_config, mbind in Hrun. rewrite send_all_delivered in Hrun by done.
  destruct (reply_all_delivered conn batch
              {| st_trace := st_trace s ++ map SendCrtcConfig batch; st_logs := st_logs s |} Hreply)
    as (sts & Hr & Hlen & Hsts).
  rewrite Hr in Hrun.
  destruct (log_statuses_logs 0 sts
              {| st_trace := (st_trace s ++ map SendCrtcConfig batch) ++ map AwaitReply batch;
                 st_logs := st_logs s |}) as (L & Hl & Hall & Hiff).
  cbn [st_trace st_logs] in Hrun. rewrite Hl in Hrun. injection Hrun as <- <-. simpl.
  split; [done|]. split; [by rewrite <- app_assoc|].
  exists sts, L. split; [done|]. split.
  { intros j q st Hq Hst. specialize (Hsts j q st Hq Hst). simpl in Hsts.
    by rewrite <- app_assoc in Hsts. }
  split; [done|]. split; [done|].
  intros j st. rewrite Hiff. split.
  - intros (k & -> & Hk & Hf). simpl. done.
  - intros [Hk Hf]. exists j. done.
Qed.

(** C7 at [ex_conn_failing]: the disable of Crtc 64 fails; the enable of
    Crtc 63 is still sent and answered, the failure is logged as request 0,
    and the batch succeeds. *)
Lemma batch_config_pipelined_witness :
  snd (batch_config ex_conn_failing ex_batch ex_s0) = Ok tt /\
  st_logs (fst (batch_config ex_conn_failing ex_batch ex_s0)) = [LogRequestFailed 0 SetConfig_FAILED].
Proof.
  destruct (batch_config_pipelined ex_conn_failing ex_batch ex_s0
              (fst (batch_config ex_conn_failing ex_batch ex_s0))
              (snd (batch_config ex_conn_failing ex_batch ex_s0)) (surjective_pairing _))
    as [_ Hok].
  destruct (mk_conn_reliable [(66, ex_output 0); (67, ex_output 64)]
              [(63, ex_crtc 0 0 0 []); (64, ex_crtc 0 0 71 [67])]
              ex_modes (2560, 1440) [(66, 1)]
              (fun r => if Z.eqb (req_crtc r) 64 then SetConfig_FAILED else SetConfig_SUCCESS))
    as (Hsend & Hreply & _).
  destruct (Hok Hsend Hreply) as [Hr _].
  split; [exact Hr|]. vm_compute. reflexivity.
Defined.

(** ** The mode index *)

Lemma insert_mode_lookup acc mi k :
  insert_mode acc mi !! k =
  if decide (mode_of mi = k) then Some ({[mi_id mi]} ∪ default ∅ (acc !! k)) else acc !! k.
Proof.
  unfold insert_mode. fold (mode_of mi).
  case_decide as Hk; [subst; by rewrite lookup_insert_eq|by rewrite lookup_insert_ne].
Qed.

Lemma foldl_insert_mode_None mis acc k :
  foldl insert_mode acc mis !! k = None <->
  acc !! k = None /\ forall mi, In mi mis -> mode_of mi <> k.
Proof.
  revert acc. induction mis as [|mi mis IH]; intros acc; simpl.
  - naive_solver.
  - rewrite IH, insert_mode_lookup. case_decide as Hk; split.
    + by intros [? _].
    + intros [_ Hn]. by destruct (Hn mi (or_introl eq_refl)).
    + intros [Ha Hn]. split; [done|]. intros mi' [<-|Hi]; auto.
    + intros [Ha Hn]. split; [done|]. auto.
Qed.

Lemma foldl_insert_mode_elem mis acc k i :
  i ∈ default ∅ (foldl insert_mode acc mis !! k) <->
  i ∈ default ∅ (acc !! k) \/ server_has mis i k.
Proof.
  unfold server_has.
  revert acc. induction mis as [|mi mis IH]; intros acc; simpl.
  - split; [auto|]. intros [?|(? & [] & _)]; done.
  - rewrite IH, insert_mode_lookup. case_decide as Hk; simpl.
    + rewrite elem_of_union, elem_of_singleton. split.
      * intros [[->|Ha]|(mi' & ? & ? & ?)]; [right; exists mi; auto|auto|right; exists mi'; auto].
      * intros [Ha|(mi' & [<-|Hi] & Hid & Hm)]; [auto|left; by left|right; exists mi'; auto].
    + split.
      * intros [Ha|(mi' & ? & ? & ?)]; [auto|right; exists mi'; auto].
      * intros [Ha|(mi' & [<-|Hi] & Hid & Hm)]; [auto|done|right; exists mi'; auto].
Qed.

Lemma mode_map_spec conn s :
  (c_screen_resources conn = None -> mode_map conn s = (s, Err ConnError)) /\
  forall mis ts, c_screen_resources conn = Some (mis, ts) ->
  exists modes, mode_map conn s = (s, Ok (modes, ts)) /\
    (forall k, modes !! k = None <-> forall mi, In mi mis -> mode_of mi <> k) /\
    (forall k ids i, modes !! k = Some ids -> (i ∈ ids <-> server_has mis i k)).
Proof.
  unfold mode_map, mbind, reply, ret, fail. split.
  { intros ->. done. }
  intros mis ts ->. eexists. split; [reflexivity|]. split.
  - intros k. rewrite foldl_insert_mode_None. rewrite lookup_empty. naive_solver.
  - intros k ids i Hk. pose proof (foldl_insert_mode_elem mis ∅ k i) as He.
    rewrite Hk, lookup_empty in He. simpl in He. rewrite He. set_solver.
Qed.

(** X1. [mode_map] reads the server's mode list and leaves the state
    alone: in the index it builds, the entry of a size is absent exactly
    when the server has no mode of that size, and otherwise holds exactly
    the ids of the server's modes of that size.  A failed read is a
    protocol error. *)
Theorem mode_map_index conn s :
  (c_screen_resources conn = None -> mode_map conn s = (s, Err ConnError)) /\
  forall mis ts, c_screen_resources conn = Some (mis, ts) ->
  exists modes, mode_map conn s = (s, Ok (modes, ts)) /\
    (forall k, modes !! k = None <-> forall mi, In mi mis -> mode_of mi <> k) /\
    (forall k ids i, modes !! k = Some ids -> (i ∈ ids <-> server_has mis i k)).
Proof. apply mode_map_spec. Qed.

(** X2. [find_mode_id] on the index [mode_map] builds from the server's
    modes: it fails with [ModeNotFound] exactly when the server has no mode
    of the requested size; otherwise it returns the first id of the
    output's mode list that is the id of a server mode of that size, and
    fails with [ModeNotSupported] exactly when there is none. *)
Theorem find_mode_id_first_server_mode conn s mis ts info m :
  c_screen_resources conn = Some (mis, ts) ->
  exists modes, mode_map conn s = (s, Ok (modes, ts)) /\
    (find_mode_id info modes m = Err (ModeNotFound m) <->
       forall mi, In mi mis -> mode_of mi <> m) /\
    (forall i, find_mode_id info modes m = Ok i <->
       exists pre post, oi_modes info = pre ++ i :: post /\ server_has mis i m /\
                        Forall (fun j => ~ server_has mis j m) pre) /\
    (find_mode_id info modes m = Err (ModeNotSupported m) <->
       (exists mi, In mi mis /\ mode_of mi = m) /\
       Forall (fun j => ~ server_has mis j m) (oi_modes info)).
Proof.
  intros Hres.
  destruct (mode_map_spec conn s) as [_ Hidx].
  destruct (Hidx mis ts Hres) as (modes & Hmm & HNone & Hids).
  exists modes. split; [done|].
  unfold find_mode_id.
  destruct (modes !! m) as [ids|] eqn:Hm.
  - assert (Hsame : forall j, j ∈ ids <-> server_has mis j m) by (intros j; by apply Hids).
    assert (Hex : exists mi, In mi mis /\ mode_of mi = m).
    { destruct (decide (Exists (fun mi => mode_of mi = m) mis)) as [HE|HE].
      - apply Exists_exists in HE as (mi & Hmi & Hmo). exists mi.
        split; [by apply list_elem_of_In|done].
      - exfalso. assert (modes !! m = None) as Hn; [|congruence].
        apply HNone. intros mi Hmi Hmo. apply HE, Exists_exists.
        exists mi. split; [by apply list_elem_of_In|done]. }
    pose proof (find_map_first_Some (P := fun j => j ∈ ids) (oi_modes info)) as HS.
    pose proof (find_map_first_None (P := fun j => j ∈ ids) (oi_modes info)) as HN.
    unfold first_sat in HS, HN.
    assert (Hpre : forall l, Forall (fun j => ~ j ∈ ids) l <-> Forall (fun j => ~ server_has mis j m) l).
    { intros l. apply Forall_iff. intros j. by rewrite Hsame. }
    split; [|split].
    + split; [destruct (find_map _ _); discriminate|].
      intros Hno. exfalso. destruct Hex as (mi & Hmi & Hmo). by apply (Hno mi).
    + intros i. destruct (find_map _ _) as [i'|] eqn:Hfm.
      * split.
        -- intros [= <-]. destruct (proj1 (HS i') eq_refl) as (pre & post & Hl & Hi & Hp).
           exists pre, post. split; [done|]. split; [by apply Hsame|by apply Hpre].
        -- intros (pre & post & Hl & Hi & Hp).
           assert (Some i' = Some i) as [= ->]; [|done].
           apply HS. exists pre, post. split; [done|]. split; [by apply Hsame|by apply Hpre].
      * split; [discriminate|]. intros (pre & post & Hl & Hi & Hp).
        assert (None = Some i) as Hc; [|discriminate].
        apply HS. exists pre, post. split; [done|]. split; [by apply Hsame|by apply Hpre].
    + destruct (find_map _ _) eqn:Hfm.
      * split; [discriminate|]. intros [_ Hf]. apply Hpre, HN in Hf. discriminate.
      * split; [|done]. intros _. split; [done|]. by apply Hpre, HN.
  - assert (Hno : forall mi, In mi mis -> mode_of mi <> m) by by apply HNone.
    split; [split; [done|intros _; reflexivity]|]. split.
    + intros i. split; [discriminate|].
      intros (pre & post & _ & (mi & Hmi & _ & Hmo) & _). by destruct (Hno mi).
    + split; [discriminate|]. intros [(mi & Hmi & Hmo) _]. by destruct (Hno mi).
Qed.

(** X2 at [ex_conn]: output 66 supports ids [70; 71]; the server's
    1920x1080 mode is id 70, which is chosen. *)
Lemma find_mode_id_first_server_mode_witness :
  exists modes, mode_map ex_conn ex_s0 = (ex_s0, Ok (modes, 1)) /\
                find_mode_id (ex_output 0) modes ex_1080p = Ok 70.
Proof.
  destruct (find_mode_id_first_server_mode ex_conn ex_s0 ex_modes 1 (ex_output 0) ex_1080p)
    as (modes & Hmm & _ & Hok & _); [reflexivity|].
  exists modes. split; [exact Hmm|]. apply Hok.
  exists [], [71]. split; [reflexivity|]. split; [|constructor].
  exists {| mi_id := 70; mi_width := 1920; mi_height := 1080 |}.
  split; [by left|done].
Defined.

(** ** Reading the monitors *)

Lemma get_monitors_closed conn outputs s :
  get_monitors conn outputs s =
    ({| st_trace := st_trace s;
        st_logs := st_logs s ++ map LogEdidError (List.filter (edid_failed conn) outputs) |},
     Ok (omap (read_monitor conn) outputs)).
Proof.
  revert s. induction outputs as [|o outputs IH]; intros s; simpl.
  - rewrite app_nil_r. by destruct s.
  - unfold read_monitor at 1, edid_failed at 1.
    destruct (c_output_property conn o) as [| |m]; simpl.
    + unfold mbind, log. simpl. rewrite IH. simpl. by rewrite <- app_assoc.
    + apply IH.
    + unfold mbind. rewrite IH. done.
Qed.

(** X3. [get_monitors] never fails and sends nothing: it returns, in the
    order of the output list, the outputs whose EDID parses, each with its
    identity, and logs, in the same order, one error per output whose EDID
    cannot be read; an output whose EDID does not parse is dropped without
    a message. *)
Theorem get_monitors_result conn outputs s :
  get_monitors conn outputs s =
    ({| st_trace := st_trace s;
        st_logs := st_logs s ++ map LogEdidError (List.filter (edid_failed conn) outputs) |},
     Ok (omap (read_monitor conn) outputs)).
Proof. apply get_monitors_closed. Qed.

Lemma map_fst_read_monitor conn outputs :
  map fst (omap (read_monitor conn) outputs) `sublist_of` outputs.
Proof.
  induction outputs as [|o outputs IH]; simpl; [done|].
  unfold read_monitor at 1. destruct (c_output_property conn o); simpl;
    [by apply sublist_cons_r; left|by apply sublist_cons_r; left|by apply sublist_skip].
Qed.

Lemma fmap_eq_map {A B} (f : A -> B) (l : list A) : f <$> l = map f l.
Proof. induction l; simpl; [done|]. by f_equal. Qed.

Lemma collect_map_list_to_map (pairs : list (Z * Monitor)) (m : gmap Z Monitor) :
  NoDup (map fst pairs) ->
  foldl (fun m '(o, mon) => <[o := mon]> m) m pairs = list_to_map pairs ∪ m.
Proof.
  revert m. induction pairs as [|[o mon] pairs IH]; intros m Hnd; simpl.
  - by rewrite map_empty_union.
  - simpl in Hnd. apply NoDup_cons in Hnd as [Hno Hnd].
    rewrite IH by done. rewrite <- insert_union_l.
    rewrite insert_union_r; [done|].
    apply not_elem_of_list_to_map_1. by rewrite fmap_eq_map.
Qed.

(** X4. When the server lists each output once, the key [get_config]
    looks up is the sorted list of the identities read, one entry per
    output with a parsed EDID (so a monitor seen on two outputs appears
    twice), and those outputs are the listed ones whose EDID parses, in
    order. *)
Theorem monitors_key_counts conn outputs s s1 pairs :
  NoDup outputs ->
  get_monitors conn outputs s = (s1, Ok pairs) ->
  monitors_key (collect_map pairs) = sort (map snd pairs) /\
  length (monitors_key (collect_map pairs)) = length pairs /\
  map fst pairs = List.filter (fun o => bool_decide (is_Some (read_monitor conn o))) outputs.
Proof.
  intros Hnd Hg. rewrite get_monitors_closed in Hg. injection Hg as _ <-.
  assert (Hnd' : NoDup (map fst (omap (read_monitor conn) outputs))).
  { eapply sublist_NoDup; [done|apply map_fst_read_monitor]. }
  assert (Hmap : collect_map (omap (read_monitor conn) outputs)
                 = list_to_map (omap (read_monitor conn) outputs)).
  { unfold collect_map. rewrite collect_map_list_to_map by done. apply map_union_empty. }
  assert (Hperm : monitors_key (collect_map (omap (read_monitor conn) outputs))
                  = sort (map snd (omap (read_monitor conn) outputs))).
  { unfold monitors_key. rewrite Hmap. apply sort_canonical.
    apply Permutation_map, map_to_list_to_map. by rewrite fmap_eq_map. }
  split; [done|]. split.
  - rewrite Hperm. rewrite (Permutation_length (sort_perm _)). apply length_map.
  - clear. induction outputs as [|o outputs IH]; simpl; [done|].
    destruct (read_monitor conn o) as [[o' m]|] eqn:Hr; simpl.
    + f_equal; [|done].
      unfold read_monitor in Hr. destruct (c_output_property conn o); congruence.
    + done.
Qed.

(** X4 at [ex_conn_mirror]: monitor 1 on outputs 66 and 67 gives the key
    [1; 1]. *)
Lemma monitors_key_counts_witness :
  monitors_key (collect_map [(66, 1); (67, 1)]) = [1; 1].
Proof.
  destruct (monitors_key_counts ex_conn_mirror [66; 67] ex_s0 ex_s0 [(66, 1); (67, 1)])
    as [Hk _].
  - repeat constructor; set_solver.
  - vm_compute. reflexivity.
  - rewrite Hk. vm_compute. reflexivity.
Defined.

(** ** The configured outputs *)

(** X5. The outputs [apply_config] configures are those of the server's
    list that have an entry in the setup, in the server's order and with
    that entry; setup entries for outputs the server does not list are
    ignored. *)
Theorem outs_in_conf_spec res (setup : gmap Z MonConfig) :
  map snd (outs_in_conf res setup) =
    List.filter (fun o => bool_decide (is_Some (setup !! o))) (res_outputs res) /\
  (forall conf o, In (conf, o) (outs_in_conf res setup) <->
     In o (res_outputs res) /\ setup !! o = Some conf).
Proof.
  unfold outs_in_conf. induction (res_outputs res) as [|o os [IH1 IH2]]; simpl.
  - split; [done|]. intros conf o. split; [done|]. by intros [].
  - destruct (setup !! o) as [c|] eqn:Ho; simpl.
    + split; [by f_equal|]. intros conf o'. rewrite IH2. split.
      * intros [[= <- <-]|[Hi Hs]]; auto.
      * intros [[<-|Hi] Hs]; [left; congruence|auto].
    + split; [done|]. intros conf o'. rewrite IH2. split.
      * intros [Hi Hs]; auto.
      * intros [[<-|Hi] Hs]; [congruence|auto].
Qed.

(** ** Failed batches *)

Lemma send_all_result conn b s s' r :
  send_all conn b s = (s', r) ->
  st_logs s' = st_logs s /\
  match r with
  | Ok _ => st_trace s' = st_trace s ++ map SendCrtcConfig b
  | Err e => e = ConnError /\ exists k q, b !! k = Some q /\
               st_trace s' = st_trace s ++ map SendCrtcConfig (take k b) /\
               c_send_ok conn (st_trace s') q = false
  end.
Proof.
  revert s. induction b as [|q b IH]; intros s Hs; simpl in Hs.
  - injection Hs as <- <-. simpl. by rewrite app_nil_r.
  - unfold mbind, trace_now in Hs. destruct (c_send_ok conn (st_trace s) q) eqn:Hok.
    + simpl in Hs. apply IH in Hs as [Hl Hr]. simpl in Hl. split; [done|].
      destruct r as [u|e].
      * simpl in Hr. by rewrite Hr, <- app_assoc.
      * destruct Hr as [-> (k & q' & Hk & Ht & Hf)]. split; [done|].
        exists (S k), q'. split; [done|]. simpl in Ht. split; [|done]. simpl. by rewrite Ht, <- app_assoc.
    + unfold fail in Hs. injection Hs as <- <-. split; [done|]. split; [done|].
      exists 0%nat, q. simpl. by rewrite app_nil_r.
Qed.

Lemma reply_all_result conn b s s' r :
  reply_all conn b s = (s', r) ->
  st_logs s' = st_logs s /\
  match r with
  | Ok _ => st_trace s' = st_trace s ++ map AwaitReply b
  | Err e => e = ConnError /\ exists j q, b !! j = Some q /\
               st_trace s' = st_trace s ++ map AwaitReply (take (S j) b) /\
               c_reply conn (st_trace s') q = None
  end.
Proof.
  revert s s' r. induction b as [|q b IH]; intros s s' r Hs; simpl in Hs.
  - injection Hs as <- <-. simpl. by rewrite app_nil_r.
  - unfold mbind at 1 in Hs. simpl in Hs. unfold mbind at 1, trace_now in Hs. simpl in Hs.
    unfold mbind at 1, reply in Hs.
    destruct (c_reply conn (st_trace s ++ [AwaitReply q]) q) as [st|] eqn:Hst.
    + unfold ret at 1 in Hs. unfold mbind at 1 in Hs.
      destruct (reply_all conn b {| st_trace := st_trace s ++ [AwaitReply q]; st_logs := st_logs s |})
        as [s1 r1] eqn:Hb.
      apply IH in Hb as [Hl Hr]. simpl in Hl.
      destruct r1 as [sts|e]; injection Hs as <- <-.
      * split; [done|]. simpl in Hr. by rewrite Hr, <- app_assoc.
      * split; [done|]. destruct Hr as [-> (j & q' & Hj & Ht & Hn)]. split; [done|].
        exists (S j), q'. split; [done|]. simpl in Ht. split; [|done]. simpl. by rewrite Ht, <- app_assoc.
    + unfold fail in Hs. injection Hs as <- <-. simpl. split; [done|]. split; [done|].
      exists 0%nat, q. done.
Qed.

(** X6. A failed [batch_config] fails with a protocol error before any
    request status is reported: none of the [error!] lines of a failed
    request is written (the [info!] progress lines are not modelled).  Either the [k]-th send was refused, after only the requests
    before it were sent and before any reply was awaited; or every request
    was sent and the reply of the [j]-th one could not be read, right
    after it was awaited. *)
Theorem batch_config_failure conn b s s' e :
  batch_config conn b s = (s', Err e) ->
  e = ConnError /\ st_logs s' = st_logs s /\
  ((exists k q, b !! k = Some q /\
      st_trace s' = st_trace s ++ map SendCrtcConfig (take k b) /\
      c_send_ok conn (st_trace s') q = false) \/
   (exists j q, b !! j = Some q /\
      st_trace s' = st_trace s ++ map SendCrtcConfig b ++ map AwaitReply (take (S j) b) /\
      c_reply conn (st_trace s') q = None)).
Proof.
  unfold batch_config, mbind. intros Hb.
  destruct (send_all conn b s) as [s1 [u|e1]] eqn:Hs;
    apply send_all_result in Hs as [Hl1 Hr1].
  - destruct (reply_all conn b s1) as [s2 [sts|e2]] eqn:Hr;
      apply reply_all_result in Hr as [Hl2 Hr2].
    + destruct (log_statuses_logs 0 sts s2) as (L & Hls & _).
      rewrite Hls in Hb. discriminate.
    + injection Hb as <- <-. destruct Hr2 as [-> (j & q & Hj & Ht & Hn)].
      split; [done|]. split; [congruence|]. right. exists j, q. split; [done|].
      split; [by rewrite Ht, Hr1, <- app_assoc|done].
  - injection Hb as <- <-. destruct Hr1 as [-> Hk].
    split; [done|]. split; [done|]. by left.
Qed.

(** X6 at [ex_conn_refusing]: the disable of Crtc 64 is sent, the enable
    of Crtc 63 is refused; the batch fails with nothing logged. *)
Lemma batch_config_failure_witness :
  snd (batch_config ex_conn_refusing ex_batch ex_s0) = Err ConnError /\
  st_logs (fst (batch_config ex_conn_refusing ex_batch ex_s0)) = [] /\
  st_trace (fst (batch_config ex_conn_refusing ex_batch ex_s0)) = map SendCrtcConfig (take 1 ex_batch).
Proof.
  destruct (batch_config_failure ex_conn_refusing ex_batch ex_s0
              (fst (batch_config ex_conn_refusing ex_batch ex_s0)) ConnError)
    as (_ & Hl & _); [vm_compute; reflexivity|].
  split; [vm_compute; reflexivity|]. split; [exact Hl|]. vm_compute. reflexivity.
Defined.

(** ** The queues of [apply_config] *)

Lemma configure_output_step conn modes ts conf o acc s s' acc' :
  configure_output conn modes ts conf o acc s = (s', Ok acc') ->
  s' = s /\ exists info m d ci,
    c_output_info conn o ts = Some info /\ find_mode_id info modes (mode conf) = Ok m /\
    allocate_crtc info (free acc) = (Some d, free acc') /\ c_crtc_info conn d ts = Some ci /\
    mm_w acc' = add_u32 (mm_w acc) (oi_mm_width info) /\
    mm_h acc' = add_u32 (mm_h acc) (oi_mm_height info) /\
    enables acc' = enables acc ++
      (if needs_enable (position conf) m ci
       then [enable_request d ci (position conf) m o] else []).
Proof.
  unfold configure_output, mbind, reply, lift, ret, fail. intros H.
  destruct (c_output_info conn o ts) as [info|] eqn:Hi; [|discriminate].
  destruct (find_mode_id info modes (mode conf)) as [m|] eqn:Hm; [|discriminate].
  destruct (allocate_crtc info (free acc)) as [[d|] fr] eqn:Ha; [|discriminate].
  destruct (c_crtc_info conn d ts) as [ci|] eqn:Hci; [|discriminate].
  injection H as <- <-. split; [done|]. exists info, m, d, ci. simpl.
  repeat split; try done. by destruct (needs_enable (position conf) m ci); rewrite ?app_nil_r.
Qed.

Lemma add_u32_range a b : 0 <= add_u32 a b < 2 ^ 32.
Proof. unfold add_u32. apply Z.mod_pos_bound. lia. Qed.

Lemma enable_request_for conn modes ts outs conf o info m d ci :
  In (conf, o) outs -> c_output_info conn o ts = Some info ->
  find_mode_id info modes (mode conf) = Ok m -> c_crtc_info conn d ts = Some ci ->
  needs_enable (position conf) m ci = true ->
  enable_for conn modes ts outs (enable_request d ci (position conf) m o).
Proof.
  intros Hin Hinfo Hm Hci Hne. exists conf, o, info, ci. simpl.
  do 10 (split; [done|]).
  unfold needs_enable in Hne.
  destruct (Z.eqb_spec (x (position conf)) (ci_x ci)); [|by left].
  destruct (Z.eqb_spec (y (position conf)) (ci_y ci)); [|by right; left].
  destruct (Z.eqb_spec m (ci_mode ci)); [done|by right; right].
Qed.

Lemma configure_outputs_spec conn modes ts outs acc s s' acc' :
  configure_outputs conn modes ts outs acc s = (s', Ok acc') ->
  0 <= mm_w acc < 2 ^ 32 -> 0 <= mm_h acc < 2 ^ 32 ->
  s' = s /\ exists infos new,
    Forall2 (fun p info => c_output_info conn p.2 ts = Some info) outs infos /\
    Forall is_Some (fst (alloc_seq infos (free acc))) /\
    free acc' = snd (alloc_seq infos (free acc)) /\
    enables acc' = enables acc ++ new /\
    Forall (fun r => Some (req_crtc r) ∈ fst (alloc_seq infos (free acc)) /\
                     enable_for conn modes ts outs r) new /\
    map req_outputs new `sublist_of` map (fun p => [p.2]) outs /\
    mm_w acc' = (mm_w acc + sum_Z (map oi_mm_width infos)) mod 2 ^ 32 /\
    mm_h acc' = (mm_h acc + sum_Z (map oi_mm_height infos)) mod 2 ^ 32.
Proof.
  revert acc s. induction outs as [|[conf o] outs IH]; intros acc s Hc Hw Hh; simpl in Hc.
  - injection Hc as <- <-. split; [done|]. exists [], []. simpl.
    rewrite !Z.add_0_r, !Z.mod_small by done. rewrite app_nil_r.
    repeat split; by constructor.
  - unfold mbind at 1 in Hc.
    destruct (configure_output conn modes ts conf o acc s) as [s1 [acc1|e]] eqn:H1; [|discriminate].
    apply configure_output_step in H1 as [-> (info & m & d & ci & Hinfo & Hm & Ha & Hci & Hw1 & Hh1 & He1)].
    destruct (IH acc1 s Hc) as [-> (infos & new & HF & Hsome & Hfree & Hen & Hnew & Hsub & Hmw & Hmh)];
      [rewrite Hw1; apply add_u32_range|rewrite Hh1; apply add_u32_range|].
    split; [done|].
    set (new0 := if needs_enable (position conf) m ci
                 then [enable_request d ci (position conf) m o] else []).
    exists (info :: infos), (new0 ++ new). simpl. rewrite Ha.
    destruct (alloc_seq infos (free acc1)) as [ds fr2] eqn:Hal. simpl in *.
    split; [by constructor|]. split; [by constructor|]. split; [done|].
    split; [by rewrite Hen, He1, app_assoc|].
    split.
    { apply Forall_app. split.
      - unfold new0. destruct (needs_enable _ _ _) eqn:Hne; [|done].
        constructor; [|done]. split; [simpl; by left|].
        eapply enable_request_for; [by left|done..].
      - eapply Forall_impl; [exact Hnew|]. intros r [Hr Hf]. split; [by right|].
        destruct Hf as (conf' & o' & info' & ci' & Hin & Hrest). exists conf', o', info', ci'.
        split; [by right|done]. }
    split.
    { rewrite map_app. change ([o] :: map (fun p : MonConfig * Z => [p.2]) outs)
        with ([[o]] ++ map (fun p : MonConfig * Z => [p.2]) outs).
      apply sublist_app; [|done]. unfold new0. destruct (needs_enable _ _ _); simpl.
      - done.
      - apply sublist_nil_l. }
    unfold add_u32 in Hw1, Hh1. rewrite Hmw, Hmh, Hw1, Hh1.
    rewrite !Zplus_mod_idemp_l. split; f_equal; lia.
Qed.

Lemma collect_disables_spec conn ts crtcs s s' ds :
  collect_disables conn ts crtcs s = (s', Ok ds) ->
  s' = s /\ map req_crtc ds `sublist_of` crtcs /\
  Forall (fun d => exists info, c_crtc_info conn (req_crtc d) ts = Some info /\
                                d = disable_crtc (req_crtc d) info /\ crtc_active info) ds /\
  (forall c, In c crtcs -> exists info, c_crtc_info conn c ts = Some info /\
                                        (crtc_active info -> In c (map req_crtc ds))).
Proof.
  revert s s' ds. induction crtcs as [|c crtcs IH]; intros s s' ds H; simpl in H.
  - injection H as <- <-. split; [done|]. split; [done|]. split; [done|]. by intros ? [].
  - unfold mbind, reply, ret, fail in H.
    destruct (c_crtc_info conn c ts) as [info|] eqn:Hinfo; [|discriminate].
    destruct (collect_disables conn ts crtcs s) as [s1 [ds1|e]] eqn:Hc; [|discriminate].
    apply IH in Hc as (-> & Hsub & Hall & Hcomp). injection H as <- <-.
    split; [done|].
    assert (Hact : (negb (bool_decide (ci_outputs info = [])) || negb (ci_mode info =? 0)) = true
                   <-> crtc_active info).
    { unfold crtc_active. rewrite orb_true_iff, !negb_true_iff, bool_decide_eq_false, Z.eqb_neq.
      done. }
    destruct (negb (bool_decide (ci_outputs info = [])) || negb (ci_mode info =? 0)) eqn:Hb.
    + split; [by apply sublist_skip|]. split.
      * constructor; [|done]. exists info. split; [done|]. split; [done|]. by apply Hact.
      * intros c' [<-|Hi]; [exists info; split; [done|]; intros _; by left|].
        destruct (Hcomp c' Hi) as (info' & ? & Himp). exists info'. split; [done|].
        intros Ha. right. by apply Himp.
    + split; [by apply sublist_cons_r; left|]. split; [done|].
      intros c' [<-|Hi]; [|by apply Hcomp].
      exists info. split; [done|]. intros Ha. apply Hact in Ha. discriminate.
Qed.

Lemma compute_queues_ok conn res setup s q :
  snd (compute_queues conn res setup s) = Ok q ->
  exists modes ts acc gw gh,
    mode_map conn s = (s, Ok (modes, ts)) /\
    configure_outputs conn modes ts (outs_in_conf res setup) (acc0 res) s = (s, Ok acc) /\
    collect_disables conn ts (elements (free acc)) s = (s, Ok (q_disables q)) /\
    q_enables q = enables acc /\ q_mm_w q = mm_w acc /\ q_mm_h q = mm_h acc /\
    c_geometry conn = Some (gw, gh) /\ q_current q = {| w := gw; h := gh |}.
Proof.
  unfold compute_queues, mbind.
  destruct (mode_map conn s) as [s1 [[modes ts]|e]] eqn:Hmm; [|discriminate].
  assert (s1 = s) as -> by (unfold mode_map, mbind, reply, ret, fail in Hmm;
                            destruct (c_screen_resources conn) as [[]|]; congruence).
  fold (acc0 res).
  destruct (configure_outputs conn modes ts (outs_in_conf res setup) (acc0 res) s)
    as [s2 [acc|e]] eqn:Hco; [|discriminate].
  assert (s2 = s) as -> by (pose proof (configure_outputs_sp conn modes ts (outs_in_conf res setup) (acc0 res) s) as Hsp;
                            rewrite Hco in Hsp; done).
  destruct (collect_disables conn ts (elements (free acc)) s) as [s3 [ds|e]] eqn:Hcd; [|discriminate].
  assert (s3 = s) as -> by (pose proof (collect_disables_sp conn ts (elements (free acc)) s) as Hsp;
                            rewrite Hcd in Hsp; done).
  unfold reply, ret, fail. destruct (c_geometry conn) as [[gw gh]|]; simpl; [|discriminate].
  intros [= <-]. exists modes, ts, acc, gw, gh. by repeat split.
Qed.

Lemma configure_outputs_acc0 conn modes ts res setup s acc :
  configure_outputs conn modes ts (outs_in_conf res setup) (acc0 res) s = (s, Ok acc) ->
  exists infos new,
    Forall2 (fun p info => c_output_info conn p.2 ts = Some info) (outs_in_conf res setup) infos /\
    Forall is_Some (fst (alloc_seq infos (list_to_set (res_crtcs res)))) /\
    free acc = snd (alloc_seq infos (list_to_set (res_crtcs res))) /\
    enables acc = new /\
    Forall (fun r => Some (req_crtc r) ∈ fst (alloc_seq infos (list_to_set (res_crtcs res))) /\
                     enable_for conn modes ts (outs_in_conf res setup) r) new /\
    map req_outputs new `sublist_of` map (fun p => [p.2]) (outs_in_conf res setup) /\
    mm_w acc = sum_Z (map oi_mm_width infos) mod 2 ^ 32 /\
    mm_h acc = sum_Z (map oi_mm_height infos) mod 2 ^ 32.
Proof.
  intros Hc. apply configure_outputs_spec in Hc as [_ (infos & new & H)]; [|simpl; lia..].
  exists infos, new. exact H.
Qed.

Lemma outs_in_conf_sublist res setup :
  map snd (outs_in_conf res setup) `sublist_of` res_outputs res.
Proof.
  unfold outs_in_conf. induction (res_outputs res) as [|o os IH]; simpl; [done|].
  destruct (setup !! o); simpl; [by apply sublist_skip|by apply sublist_cons_r; left].
Qed.

Lemma NoDup_map_singleton (l : list Z) : NoDup l -> NoDup (map (fun o => [o]) l).
Proof.
  induction l as [|o l IH]; intros Hnd; simpl; [constructor|].
  apply NoDup_cons in Hnd as [Hno Hnd]. constructor; [|by apply IH].
  intros Hin. apply list_elem_of_In, in_map_iff in Hin as (o' & [= ->] & Hi).
  apply Hno, list_elem_of_In, Hi.
Qed.

(** X7. The enable queue of [apply_config]: each request drives exactly one
    output that the server lists and the setup configures, at the
    configured position, with the normal rotation, the first matching mode
    id of that output, and the timestamps of the Crtc it reconfigures, which
    differs from the target in position or mode.  The requests follow the
    server's order of the outputs, and when the server lists each output
    once, no output gets two requests. *)
Theorem apply_config_enable_requests conn res setup s q :
  snd (compute_queues conn res setup s) = Ok q ->
  exists modes ts, mode_map conn s = (s, Ok (modes, ts)) /\
    Forall (enable_for conn modes ts (outs_in_conf res setup)) (q_enables q) /\
    map req_outputs (q_enables q) `sublist_of` map (fun p => [p.2]) (outs_in_conf res setup) /\
    (NoDup (res_outputs res) -> NoDup (map req_outputs (q_enables q))).
Proof.
  intros Hq. destruct (compute_queues_ok conn res setup s q Hq)
    as (modes & ts & acc & gw & gh & Hmm & Hco & Hcd & Hen & _).
  apply configure_outputs_acc0 in Hco as (infos & new & _ & _ & _ & Hnew & Hall & Hsub & _).
  exists modes, ts. split; [done|]. rewrite Hen, Hnew. split; [|split; [done|]].
  - eapply Forall_impl; [exact Hall|]. by intros r [_ ?].
  - intros Hnd. eapply sublist_NoDup; [|exact Hsub].
    rewrite <- (map_map snd (fun o => [o])). apply NoDup_map_singleton.
    eapply sublist_NoDup; [exact Hnd|apply outs_in_conf_sublist].
Qed.

(** X7 at [ex_conn]: the one enable request drives output 66. *)
Lemma apply_config_enable_requests_witness :
  exists modes ts, mode_map ex_conn ex_s0 = (ex_s0, Ok (modes, ts)) /\
    Forall (enable_for ex_conn modes ts (outs_in_conf ex_res ex_setup))
           (q_enables (ex_queues ex_conn ex_res ex_setup)) /\
    map req_outputs (q_enables (ex_queues ex_conn ex_res ex_setup)) = [[66]].
Proof.
  destruct (apply_config_enable_requests ex_conn ex_res ex_setup ex_s0
              (ex_queues ex_conn ex_res ex_setup)) as (modes & ts & Hmm & Hall & _ & _);
    [vm_compute; reflexivity|].
  exists modes, ts. split; [exact Hmm|]. split; [exact Hall|]. vm_compute. reflexivity.
Defined.

(** X8. The Crtcs of one pass: the allocations of the configured outputs,
    in server order, all succeed; every enable request reconfigures an
    allocated Crtc; the disable requests name distinct leftover Crtcs of
    the server's list, each disabled from its current state and each
    driving an output or a mode, and every leftover Crtc that does so is
    disabled; no Crtc is both enabled and disabled in the same pass. *)
Theorem apply_config_crtc_roles conn res setup s q :
  snd (compute_queues conn res setup s) = Ok q ->
  exists modes ts infos,
    mode_map conn s = (s, Ok (modes, ts)) /\
    Forall2 (fun p info => c_output_info conn p.2 ts = Some info) (outs_in_conf res setup) infos /\
    let al := alloc_seq infos (list_to_set (res_crtcs res)) in
    Forall is_Some (fst al) /\
    (forall r, In r (q_enables q) -> Some (req_crtc r) ∈ fst al) /\
    NoDup (map req_crtc (q_disables q)) /\
    (forall d, In d (q_disables q) ->
       req_crtc d ∈ snd al /\ In (req_crtc d) (res_crtcs res) /\
       exists info, c_crtc_info conn (req_crtc d) ts = Some info /\
                    d = disable_crtc (req_crtc d) info /\ crtc_active info) /\
    (forall c, c ∈ snd al -> exists info, c_crtc_info conn c ts = Some info /\
                                          (crtc_active info -> In c (map req_crtc (q_disables q)))) /\
    (forall r d, In r (q_enables q) -> In d (q_disables q) -> req_crtc r <> req_crtc d).
Proof.
  intros Hq. destruct (compute_queues_ok conn res setup s q Hq)
    as (modes & ts & acc & gw & gh & Hmm & Hco & Hcd & Hen & _).
  apply configure_outputs_acc0 in Hco
    as (infos & new & HF & Hsome & Hfree & Hnew & Hall & _ & _).
  apply collect_disables_spec in Hcd as (_ & Hsub & Hdis & Hcomp).
  destruct (alloc_seq_inv infos (list_to_set (res_crtcs res))) as [Hleft Hnot].
  exists modes, ts, infos. split; [done|]. split; [done|]. intros al.
  assert (Hen' : forall r, In r (q_enables q) -> Some (req_crtc r) ∈ fst al).
  { intros r Hr. rewrite Hen, Hnew in Hr. apply list_elem_of_In in Hr.
    rewrite Forall_forall in Hall. by apply Hall. }
  assert (Hd' : forall d, In d (q_disables q) -> req_crtc d ∈ snd al).
  { intros d Hd. unfold al. rewrite <- Hfree. apply elem_of_elements.
    eapply elem_of_sublist; [|exact Hsub]. apply list_elem_of_In, in_map, Hd. }
  split; [done|]. split; [done|]. split.
  { eapply sublist_NoDup; [apply (NoDup_elements (free acc))|exact Hsub]. }
  split.
  { intros d Hd. split; [by apply Hd'|]. split.
    - apply list_elem_of_In. apply (elem_of_list_to_set (C := gset Z)). by apply Hleft, Hd'.
    - rewrite Forall_forall in Hdis. apply Hdis. by apply list_elem_of_In. }
  split.
  { intros c Hc. apply Hcomp. apply list_elem_of_In, elem_of_elements. by rewrite Hfree. }
  intros r d Hr Hd Heq. apply (Hnot (req_crtc r)); [by apply Hen'|]. rewrite Heq. by apply Hd'.
Qed.

(** X8 at [ex_conn]: Crtc 63 is enabled, Crtc 64 disabled. *)
Lemma apply_config_crtc_roles_witness :
  map req_crtc (q_enables (ex_queues ex_conn ex_res ex_setup)) = [63] /\
  map req_crtc (q_disables (ex_queues ex_conn ex_res ex_setup)) = [64] /\
  NoDup (map req_crtc (q_disables (ex_queues ex_conn ex_res ex_setup))).
Proof.
  destruct (apply_config_crtc_roles ex_conn ex_res ex_setup ex_s0
              (ex_queues ex_conn ex_res ex_setup)) as (modes & ts & infos & _ & _ & Hroles);
    [vm_compute; reflexivity|].
  destruct Hroles as (_ & _ & Hnd & _).
  split; [vm_compute; reflexivity|]. split; [vm_compute; reflexivity|]. exact Hnd.
Defined.

(** X9. The physical size [apply_config] passes to [SetScreenSize] is the
    sum of the sizes, in millimetres, of every configured output (whether
    or not its Crtc is reconfigured), wrapped to 32 bits. *)
Theorem apply_config_mm_size conn res setup s q :
  snd (compute_queues conn res setup s) = Ok q ->
  exists modes ts infos,
    mode_map conn s = (s, Ok (modes, ts)) /\
    Forall2 (fun p info => c_output_info conn p.2 ts = Some info) (outs_in_conf res setup) infos /\
    q_mm_w q = sum_Z (map oi_mm_width infos) mod 2 ^ 32 /\
    q_mm_h q = sum_Z (map oi_mm_height infos) mod 2 ^ 32.
Proof.
  intros Hq. destruct (compute_queues_ok conn res setup s q Hq)
    as (modes & ts & acc & gw & gh & Hmm & Hco & Hcd & Hen & Hmw & Hmh & _).
  apply configure_outputs_acc0 in Hco as (infos & new & HF & _ & _ & _ & _ & _ & Hw & Hh).
  exists modes, ts, infos. rewrite Hmw, Hmh. done.
Qed.

(** X9 at [ex_conn_shared]: two configured outputs of 520x290 mm each. *)
Lemma apply_config_mm_size_witness :
  exists infos, q_mm_w (ex_queues ex_conn_shared ex_res ex_setup_shared)
                = sum_Z (map oi_mm_width infos) mod 2 ^ 32 /\ length infos = 2%nat.
Proof.
  destruct (apply_config_mm_size ex_conn_shared ex_res ex_setup_shared ex_s0
              (ex_queues ex_conn_shared ex_res ex_setup_shared))
    as (modes & ts & infos & _ & HF & Hw & _); [vm_compute; reflexivity|].
  exists infos. split; [exact Hw|]. apply Forall2_length in HF. rewrite <- HF.
  vm_compute. reflexivity.
Defined.

(** X10. A pass whose reads (the mode list, an output, a Crtc, the root
    geometry) or resolutions (a mode, a Crtc for an output) fail, fails
    with that error before any write: the server sees no request and
    nothing is logged. *)
Theorem apply_config_read_error conn res fb_size setup s e :
  snd (compute_queues conn res setup s) = Err e ->
  apply_config conn res fb_size setup s = (s, Err e).
Proof.
  intros He. pose proof (compute_queues_sp conn res setup s) as Hs.
  unfold apply_config, mbind. destruct (compute_queues conn res setup s) as [s1 r].
  simpl in He, Hs. by subst.
Qed.

(** X10 at [ex_setup_800]: 800x600 is not a server mode. *)
Lemma apply_config_read_error_witness :
  apply_config ex_conn ex_res ex_1080p ex_setup_800 ex_s0
  = (ex_s0, Err (ModeNotFound {| w := 800; h := 600 |})).
Proof. apply apply_config_read_error. vm_compute. reflexivity. Defined.

(** ** Screen sizes *)

Lemma size_requests_app l1 l2 : size_requests (l1 ++ l2) = size_requests l1 ++ size_requests l2.
Proof. induction l1 as [|[] l1 IH]; simpl; by rewrite ?IH. Qed.

Lemma size_requests_batch b : size_requests (batch_events b) = [].
Proof.
  unfold batch_events. rewrite size_requests_app.
  induction b as [|r b IH]; simpl; [done|]. done.
Qed.

Lemma union_self m : union m m = m.
Proof. destruct m as [a b]. unfold union. simpl. by rewrite !Z.max_id. Qed.

(** X11. The [SetScreenSize] requests of a pass that [apply_config]
    reports as a change: none when the screen already had the target
    size; otherwise at most two, the last of which sets exactly the target
    size.  Each is at least the target in both dimensions and carries the
    summed physical size. *)
Theorem apply_config_final_size conn res fb_size setup s q s' :
  snd (compute_queues conn res setup s) = Ok q ->
  apply_config conn res fb_size setup s = (s', Ok true) ->
  exists new, st_trace s' = st_trace s ++ new /\
    (q_current q = fb_size -> size_requests new = []) /\
    (q_current q <> fb_size ->
       last (size_requests new) = Some (w fb_size, h fb_size, q_mm_w q, q_mm_h q)) /\
    (length (size_requests new) <= 2)%nat /\
    Forall (fun '(wd, ht, mw, mh) => w fb_size <= wd /\ h fb_size <= ht /\
                                     mw = q_mm_w q /\ mh = q_mm_h q) (size_requests new).
Proof.
  intros Hq Hrun. rewrite (apply_config_commit _ _ _ _ _ _ Hq) in Hrun.
  assert (Hu : ~ unchanged fb_size (q_current q) (q_disables q) (q_enables q)).
  { intros Hu. rewrite commit_unchanged in Hrun by done. discriminate. }
  pose proof (commit_emits conn fb_size (q_current q) (q_disables q) (q_enables q)
                (q_mm_w q) (q_mm_h q) Hu s) as He.
  rewrite Hrun in He. destruct He as [_ Ht].
  eexists. split; [exact Ht|]. unfold safe_commit_order.
  rewrite !size_requests_app, !size_requests_batch. simpl.
  set (u := union (q_current q) fb_size).
  assert (Hu1 : w fb_size <= w u /\ h fb_size <= h u) by (unfold u, union; simpl; lia).
  assert (Hcf : q_current q = fb_size -> u = fb_size) by (intros Hc; unfold u; by rewrite Hc, union_self).
  destruct (decide (q_current q = u)) as [H1|H1], (decide (u = fb_size)) as [H2|H2]; simpl.
  - split; [done|]. split; [intros Hc; exfalso; apply Hc; congruence|].
    split; [lia|constructor].
  - split; [intros Hc; by apply Hcf in Hc|]. split; [done|].
    split; [simpl; lia|]. repeat constructor; lia.
  - pose proof (f_equal w H2) as Hw. pose proof (f_equal h H2) as Hh.
    unfold u, union in Hw, Hh. simpl in Hw, Hh. rewrite Hw, Hh.
    split; [intros Hc; exfalso; apply H1; rewrite H2; done|]. split; [done|].
    split; [simpl; lia|]. repeat constructor; lia.
  - split; [intros Hc; by apply Hcf in Hc|]. split; [done|].
    split; [simpl; lia|]. unfold u, union in Hu1; simpl in Hu1. repeat constructor; lia.
Qed.

(** X11 at [ex_conn]: the screen goes from 2560x1440 to 1920x1080 in one
    request. *)
Lemma apply_config_final_size_witness :
  exists new, st_trace (fst (apply_config ex_conn ex_res ex_1080p ex_setup ex_s0)) = new /\
              last (size_requests new) = Some (1920, 1080, 520, 290).
Proof.
  destruct (apply_config_final_size ex_conn ex_res ex_1080p ex_setup ex_s0
              (ex_queues ex_conn ex_res ex_setup)
              (fst (apply_config ex_conn ex_res ex_1080p ex_setup ex_s0)))
    as (new & Ht & _ & Hlast & _); [vm_compute; reflexivity|vm_compute; reflexivity|].
  exists new. split; [exact Ht|]. rewrite Hlast.
  - vm_compute. reflexivity.
  - vm_compute. intros H. discriminate H.
Defined.

(** ** Settled passes *)

(** X12. A pass on a server that already shows the matched profile
    (nothing to disable, nothing to enable, the screen at the profile's
    size) sends no request.  Triggered by a notification, it writes no
    message beyond the EDID read errors of [get_monitors]; the forced
    initial pass adds only the profile's name.  So the notifications caused
    by the daemon's own changes end without further writes. *)
Theorem switch_setup_settled config conn res s s1 pairs sc q :
  c_screen_resources_current conn = Some res ->
  get_monitors conn (res_outputs res) s = (s1, Ok pairs) ->
  config !! monitors_key (collect_map pairs) = Some sc ->
  snd (compute_queues conn res (restrict_setup (collect_map pairs) (sc_setup sc)) s1) = Ok q ->
  q_disables q = [] -> q_enables q = [] -> q_current q = sc_fb_size sc ->
  st_trace s1 = st_trace s /\
  st_logs s1 = st_logs s ++ map LogEdidError (List.filter (edid_failed conn) (res_outputs res)) /\
  run (switch_setup config conn false) s = s1 /\
  run (switch_setup config conn true) s =
    {| st_trace := st_trace s1; st_logs := st_logs s1 ++ [LogConfiguration (sc_name sc)] |}.
Proof.
  intros Hres Hg Hk Hq Hd He Hc.
  assert (Happ : apply_config conn res (sc_fb_size sc)
                   (restrict_setup (collect_map pairs) (sc_setup sc)) s1 = (s1, Ok false)).
  { rewrite (apply_config_commit _ _ _ _ _ _ Hq). apply commit_unchanged. done. }
  assert (Hsw : forall force, switch_setup config conn force s =
            match apply_config conn res (sc_fb_size sc)
                    (restrict_setup (collect_map pairs) (sc_setup sc)) s1 with
            | (s', Ok changed) => if changed || force then log (LogConfiguration (sc_name sc)) s'
                                  else (s', Ok tt)
            | (s', Err e) => log (LogError e) s'
            end).
  { intros force. unfold switch_setup. rewrite Hres. cbv beta iota. unfold mbind.
    rewrite (get_config_unfold config conn (res_outputs res) s s1 pairs Hg), Hk. reflexivity. }
  rewrite get_monitors_closed in Hg. injection Hg as Hs1 _.
  split; [by rewrite <- Hs1|]. split; [by rewrite <- Hs1|].
  unfold run. rewrite !Hsw, Happ. simpl. done.
Qed.

(** X12 at [ex_conn_settled]: profile [1] is already in place. *)
Lemma switch_setup_settled_witness :
  run (switch_setup ex_config ex_conn_settled false) ex_s0 = ex_s0 /\
  run (switch_setup ex_config ex_conn_settled true) ex_s0 =
    {| st_trace := []; st_logs := [LogConfiguration "P1"] |}.
Proof.
  destruct (switch_setup_settled ex_config ex_conn_settled ex_res ex_s0 ex_s0 [(66, 1)]
              {| sc_name := "P1"; sc_setup := <[1 := ex_monA]> ∅; sc_fb_size := ex_1080p |}
              (ex_queues ex_conn_settled ex_res
                 (restrict_setup (collect_map [(66, 1)]) (<[1 := ex_monA]> ∅))))
    as (_ & _ & H1 & H2); try (vm_compute; reflexivity).
  split; [exact H1|exact H2].
Defined.
